(** * State comparison and state merging (manticore/core/state_merging.py)

    A shallow embedding of the state-merging helpers of the symbolic
    execution engine: the structural comparators ([compare_buffers],
    [compare_sockets]), the constraint merger ([merge_constraints]), the
    memory comparator ([compare_byte_vals], [compare_mem]), the mergeability
    check ([is_merge_possible]) and the CPU merger ([merge_cpu], [merge]).

    Python objects that are shared and mutated (sockets linked through
    [peer], CPUs written through [state.cpu]) live in stores indexed by
    object identity.  Solver calls are recorded in a query log, so that
    short-circuiting is observable.  Exceptions are outcomes. *)

From stdpp Require Import base option list functions gmap strings fin_maps.
From Stdlib Require Import ZArith Lia.

Local Open Scope Z_scope.

(** ** Expressions *)

(** Modelled from the spec: the smtlib expression classes are imported by
    the module and not defined in it.  A value is a concrete Python number
    ([bool] being the numbers 0 and 1) or a symbolic expression; bit-vector
    expressions carry their size. *)
Inductive Expr : Type :=
| PyInt (v : Z)
| PyBool (b : bool)
| BitVecVariable (size : Z) (name : string)
| BoolVariable (name : string)
| BoolAnd (a b : Expr)
| BoolOr (a b : Expr)
| BoolEqual (a b : Expr)
| BoolITE (c t e : Expr)
| BitVecITE (size : Z) (c t e : Expr).

#[global] Instance Expr_eq_dec : EqDecision Expr.
Proof. solve_decision. Defined.

(** The numeric value of a concrete Python value. *)
Definition concrete_value (e : Expr) : option Z :=
  match e with
  | PyInt v => Some v
  | PyBool b => Some (Z.b2z b)
  | _ => None
  end.

(** [issymbolic(v)] *)
Definition issymbolic (e : Expr) : bool :=
  match concrete_value e with
  | Some _ => false
  | None => true
  end.

(** [v.size] when [isinstance(v, BitVec)], [None] when [v] is no BitVec. *)
Definition bitvec_size (e : Expr) : option Z :=
  match e with
  | BitVecVariable size _ => Some size
  | BitVecITE size _ _ _ => Some size
  | _ => None
  end.

(** [a == b]: a Python [bool] on two concrete values, an equality
    expression as soon as one side is symbolic. *)
Definition py_eq (a b : Expr) : Expr :=
  match concrete_value a, concrete_value b with
  | Some x, Some y => PyBool (x =? y)
  | _, _ => BoolEqual a b
  end.

(** [a & b] and [a | b] on boolean expressions. *)
Definition py_and (a b : Expr) : Expr := BoolAnd a b.
Definition py_or (a b : Expr) : Expr := BoolOr a b.

(** Modelled from the spec: [Operators.ITE] and [Operators.ITEBV] are not
    in the module; the conditional select [select(selector, a, b)] in its
    boolean form, and in its bit-vector form tagged with a width. *)
Definition ITE (c t e : Expr) : Expr := BoolITE c t e.
Definition ITEBV (size : Z) (c t e : Expr) : Expr := BitVecITE size c t e.

(** Modelled from the spec: the meaning of an expression under an
    assignment of its variables, booleans being 0 and 1. *)
Fixpoint denote (env : string -> Z) (e : Expr) : Z :=
  match e with
  | PyInt v => v
  | PyBool b => Z.b2z b
  | BitVecVariable size name => env name mod 2 ^ size
  | BoolVariable name => Z.b2z (negb (env name =? 0))
  | BoolAnd a b => Z.b2z (negb (denote env a =? 0) && negb (denote env b =? 0))
  | BoolOr a b => Z.b2z (negb (denote env a =? 0) || negb (denote env b =? 0))
  | BoolEqual a b => Z.b2z (denote env a =? denote env b)
  | BoolITE c t e => if denote env c =? 0 then denote env e else denote env t
  | BitVecITE _ c t e => if denote env c =? 0 then denote env e else denote env t
  end.

Definition holds (env : string -> Z) (e : Expr) : bool :=
  negb (denote env e =? 0).

Definition satisfiable (e : Expr) : Prop := exists env, holds env e = true.

(** ** Constraint sets *)

Record ConstraintSet : Type := mkConstraintSet { constraints : list Expr }.

#[global] Instance ConstraintSet_eq_dec : EqDecision ConstraintSet.
Proof. solve_decision. Defined.

(** [ConstraintSet()] *)
Definition ConstraintSet_new : ConstraintSet := mkConstraintSet [].

(** Modelled from the spec: [ConstraintSet.add] is not in the module; the
    set is an ordered sequence, and adding appends. *)
Definition ConstraintSet_add (cs : ConstraintSet) (e : Expr) : ConstraintSet :=
  mkConstraintSet (constraints cs ++ [e]).

(** ** Outcomes and the solver log *)

Inductive Error : Type := IndexError | AssertionError.

(** What a call yields: a value, an exception, or no answer within the
    recursion fuel that was given. *)
Inductive Outcome (A : Type) : Type :=
| Ok (a : A)
| Raise (e : Error)
| OutOfFuel.
Arguments Ok {A} a.
Arguments Raise {A} e.
Arguments OutOfFuel {A}.

#[global] Instance Outcome_ret : MRet Outcome := fun _ a => Ok a.
#[global] Instance Outcome_bind : MBind Outcome := fun _ _ k m =>
  match m with
  | Ok a => k a
  | Raise e => Raise e
  | OutOfFuel => OutOfFuel
  end.

(** [l[i]] for an index that is not negative. *)
Definition getitem {A} (l : list A) (i : nat) : Outcome A :=
  match l !! i with
  | Some x => Ok x
  | None => Raise IndexError
  end.

(** [range(lo, hi)] *)
Definition range (lo hi : nat) : list nat := seq lo (hi - lo).

(** [enumerate(l)] *)
Definition enumerate {A} (l : list A) : list (nat * A) :=
  zip (seq 0 (length l)) l.

(** ** The constraint merger *)

(** [for i in range(1, len(cs)): exp = exp & cs[i]] *)
Fixpoint conjoin_from (cs : list Expr) (indices : list nat) (exp : Expr) : Outcome Expr :=
  match indices with
  | [] => Ok exp
  | i :: indices' => c ← getitem cs i; conjoin_from cs indices' (py_and exp c)
  end.

Definition conjoin (cs : ConstraintSet) : Outcome Expr :=
  exp ← getitem (constraints cs) 0;
  conjoin_from (constraints cs) (range 1 (length (constraints cs))) exp.

Definition merge_constraints (constraints1 constraints2 : ConstraintSet)
    : Outcome (Expr * Expr * ConstraintSet) :=
  exp1 ← conjoin constraints1;
  exp2 ← conjoin constraints2;
  let merged_constraint := ConstraintSet_add ConstraintSet_new (py_or exp1 exp2) in
  Ok (exp1, exp2, merged_constraint).

(** One call [solver.must_be_true(cs, e)]. *)
Definition Query : Type := ConstraintSet * Expr.

(** A computation that may ask the solver: its outcome and the queries it
    made, in order. *)
Definition Cmp (A : Type) : Type := Outcome A * list Query.

Definition ret {A} (a : A) : Cmp A := (Ok a, []).
Definition raise {A} (e : Error) : Cmp A := (Raise e, []).

Definition bind {A B} (m : Cmp A) (k : A -> Cmp B) : Cmp B :=
  match m with
  | (Ok a, log) => let '(r, log') := k a in (r, log ++ log')
  | (Raise e, log) => (Raise e, log)
  | (OutOfFuel, log) => (OutOfFuel, log)
  end.

Notation "x <- m ;; k" := (bind m (fun x => k))
  (at level 100, m at next level, right associativity).

Definition outcome {A} (m : Cmp A) : Outcome A := fst m.
Definition queries {A} (m : Cmp A) : list Query := snd m.

(** An outcome that asked the solver nothing. *)
Definition lift {A} (o : Outcome A) : Cmp A := (o, []).

(** ** Sockets *)

(** A socket object: its buffer and its peer, a reference or [None]. *)
Record Socket : Type := mkSocket {
  buffer : list Expr;
  peer : option nat
}.

(** The socket objects, by identity. *)
Definition SocketStore : Type := nat -> Socket.

(** ** Memory *)

(** Modelled from the spec: the memory classes are not in the module.  A
    map is one contiguous region with its identity attributes (name,
    permissions, start, end) and its concrete bytes, the byte of address
    [start + i] at index [i]. *)
Record MemoryMap : Type := mkMemoryMap {
  map_name : string;
  map_perms : string;
  map_start : Z;
  map_end : Z;
  map_data : list Z
}.

(** [m1 == m2] on maps: names, permissions, starts and ends. *)
Definition map_eqb (m1 m2 : MemoryMap) : bool :=
  bool_decide (map_name m1 = map_name m2) &&
  bool_decide (map_perms m1 = map_perms m2) &&
  bool_decide (map_start m1 = map_start m2) &&
  bool_decide (map_end m1 = map_end m2).

(** Modelled from the spec: the order of maps, by start address. *)
Definition map_ltb (m1 m2 : MemoryMap) : bool := map_start m1 <? map_start m2.

(** [m[lo:hi]] *)
Definition map_slice (m : MemoryMap) (lo hi : Z) : list Z :=
  take (Z.to_nat (hi - lo)) (drop (Z.to_nat (lo - map_start m)) (map_data m)).

(** [sorted(l)]: a stable sort. *)
Fixpoint insert_map (m : MemoryMap) (l : list MemoryMap) : list MemoryMap :=
  match l with
  | [] => [m]
  | x :: l' => if map_ltb x m then x :: insert_map m l' else m :: l
  end.

Definition sorted (l : list MemoryMap) : list MemoryMap := foldr insert_map [] l.

(** Modelled from the spec: a memory object is fully concrete (class
    [Memory]) or carries, besides its maps, a dict from addresses to
    symbolic bytes (class [SMemory], attribute [_symbols], in insertion
    order).  Its method [read(addr, size)] comes with the object. *)
Inductive MemoryObj : Type :=
| Memory (maps : list MemoryMap) (read : Z -> Z -> list Expr)
| SMemory (maps : list MemoryMap) (read : Z -> Z -> list Expr)
    (_symbols : list (Z * Expr)).

Definition class_name (m : MemoryObj) : string :=
  match m with
  | Memory _ _ => "Memory"
  | SMemory _ _ _ => "SMemory"
  end.

Definition maps (m : MemoryObj) : list MemoryMap :=
  match m with
  | Memory ms _ => ms
  | SMemory ms _ _ => ms
  end.

Definition read (m : MemoryObj) : Z -> Z -> list Expr :=
  match m with
  | Memory _ rd => rd
  | SMemory _ rd _ => rd
  end.

(** [m._symbols.items()]; a [Memory] has no such attribute. *)
Definition symbols_items (m : MemoryObj) : list (Z * Expr) :=
  match m with
  | Memory _ _ => []
  | SMemory _ _ syms => syms
  end.

(** ** Platforms and states *)

(** The platform of a state: its input and output sockets (references, or
    [None]), its symbolic files and its syscall trace of
    (name, fd, data) entries. *)
Record Platform : Type := mkPlatform {
  input : option nat;
  output : option nat;
  symbolic_files : gmap string string;
  syscall_trace : list (string * Z * list Expr)
}.

(** A state object; its CPU is a reference into the store of CPUs. *)
Record State : Type := mkState {
  state_cpu : nat;
  state_mem : MemoryObj;
  state_platform : Platform;
  state_constraints : ConstraintSet
}.

Section Comparators.

(** The solver: [solver.must_be_true(cs, e)]. *)
Variable must_be_true : ConstraintSet -> Expr -> bool.

Definition ask (cs : ConstraintSet) (e : Expr) : Cmp bool :=
  (Ok (must_be_true cs e), [(cs, e)]).

(** The loop of [compare_buffers] over [zip(buffer1, buffer2)]. *)
Fixpoint compare_zipped (cs : ConstraintSet) (ps : list (Expr * Expr)) : Cmp bool :=
  match ps with
  | [] => ret true
  | (b1, b2) :: ps' =>
      ok <- ask cs (py_eq b1 b2) ;;
      if negb ok then ret false else compare_zipped cs ps'
  end.

Definition compare_buffers (cs : ConstraintSet) (buffer1 buffer2 : list Expr) : Cmp bool :=
  if negb (Nat.eqb (length buffer1) (length buffer2)) then ret false
  else compare_zipped cs (zip buffer1 buffer2).

(** [compare_sockets], the recursion on the peers bounded by [fuel]. *)
Fixpoint compare_sockets (fuel : nat) (h : SocketStore) (cs : ConstraintSet)
    (socket1 socket2 : option nat) : Cmp bool :=
  match fuel with
  | O => (OutOfFuel, [])
  | S fuel' =>
      match socket1, socket2 with
      | None, _ => ret (bool_decide (socket2 = None))
      | _, None => ret (bool_decide (socket1 = None))
      | Some s1, Some s2 =>
          ok <- compare_buffers cs (buffer (h s1)) (buffer (h s2)) ;;
          if negb ok then ret false
          else compare_sockets fuel' h cs (peer (h s1)) (peer (h s2))
      end
  end.

Definition compare_byte_vals (mem1 mem2 : MemoryObj) (addr : Z)
    (merged_constraint : ConstraintSet) : Cmp bool :=
  let val1 := read mem1 addr 1 in
  let val2 := read mem2 addr 1 in
  match val1, val2 with
  | [v1], [v2] =>
      let cond_to_check := py_eq v1 v2 in
      ok <- ask merged_constraint cond_to_check ;;
      if negb ok then ret false else ret true
  | _, _ => raise AssertionError
  end.

(** The first loop of [compare_mem], over the pairs of maps. *)
Fixpoint compare_maps (ps : list (MemoryMap * MemoryMap)) : bool :=
  match ps with
  | [] => true
  | (m1, m2) :: ps' =>
      if negb (map_eqb m1 m2) then false
      else
        let bytes1 := map_slice m1 (map_start m1) (map_end m1) in
        let bytes2 := map_slice m2 (map_start m2) (map_end m2) in
        if negb (bool_decide (bytes1 = bytes2)) then false
        else compare_maps ps'
  end.

(** The loop over [mem1._symbols.items()]; it yields [checked_addrs] with
    its verdict. *)
Fixpoint compare_symbols1 (mem1 mem2 : MemoryObj) (merged_constraint : ConstraintSet)
    (items : list (Z * Expr)) (checked_addrs : list Z) : Cmp (bool * list Z) :=
  match items with
  | [] => ret (true, checked_addrs)
  | (addr1, _) :: items' =>
      let checked_addrs := checked_addrs ++ [addr1] in
      ok <- compare_byte_vals mem1 mem2 addr1 merged_constraint ;;
      if negb ok then ret (false, checked_addrs)
      else compare_symbols1 mem1 mem2 merged_constraint items' checked_addrs
  end.

(** The loop over [mem2._symbols.items()]. *)
Fixpoint compare_symbols2 (mem1 mem2 : MemoryObj) (merged_constraint : ConstraintSet)
    (items : list (Z * Expr)) (checked_addrs : list Z) : Cmp bool :=
  match items with
  | [] => ret true
  | (addr2, _) :: items' =>
      if bool_decide (addr2 ∉ checked_addrs) then
        ok <- compare_byte_vals mem1 mem2 addr2 merged_constraint ;;
        if negb ok then ret false
        else compare_symbols2 mem1 mem2 merged_constraint items' checked_addrs
      else compare_symbols2 mem1 mem2 merged_constraint items' checked_addrs
  end.

Definition compare_mem (mem1 mem2 : MemoryObj) (merged_constraint : ConstraintSet)
    : Cmp bool :=
  let maps1 := sorted (maps mem1) in
  let maps2 := sorted (maps mem2) in
  if negb (Nat.eqb (length maps1) (length maps2)) then ret false
  else if negb (compare_maps (zip maps1 maps2)) then ret false
  else
    r1 <- (if bool_decide (class_name mem1 = "SMemory")
           then compare_symbols1 mem1 mem2 merged_constraint (symbols_items mem1) []
           else ret (true, [])) ;;
    let '(ok1, checked_addrs) := r1 in
    if negb ok1 then ret false
    else if bool_decide (class_name mem2 = "SMemory")
    then compare_symbols2 mem1 mem2 merged_constraint (symbols_items mem2) checked_addrs
    else ret true.

(** The loop of [is_merge_possible] over [enumerate(platform1.syscall_trace)]. *)
Fixpoint compare_syscalls (merged_constraint : ConstraintSet)
    (entries : list (nat * (string * Z * list Expr)))
    (trace2 : list (string * Z * list Expr)) : Cmp bool :=
  match entries with
  | [] => ret true
  | (i, (name1, fd1, data1)) :: entries' =>
      entry2 <- lift (getitem trace2 i) ;;
      let '(name2, fd2, data2) := entry2 in
      ok <- (if bool_decide (name1 = name2) && bool_decide (fd1 = fd2)
             then compare_buffers merged_constraint data1 data2
             else ret false) ;;
      if negb ok then ret false
      else compare_syscalls merged_constraint entries' trace2
  end.

Definition is_merge_possible (fuel : nat) (h : SocketStore) (state1 state2 : State)
    (merged_constraint : ConstraintSet) : Cmp (bool * option string) :=
  let platform1 := state_platform state1 in
  let platform2 := state_platform state2 in
  ok_in <- compare_sockets fuel h merged_constraint (input platform1) (input platform2) ;;
  differ <- (if negb ok_in then ret true
             else
               ok_out <- compare_sockets fuel h merged_constraint
                           (output platform1) (output platform2) ;;
               ret (negb ok_out)) ;;
  if differ then ret (false, Some "inequivalent socket operations")
  else if negb (bool_decide (symbolic_files platform1 = symbolic_files platform2))
  then ret (false, Some "inequivalent symbolic files")
  else if negb (Nat.eqb (length (syscall_trace platform1)) (length (syscall_trace platform2)))
  then ret (false, Some "inequivalent syscall trace lengths")
  else
    ok_trace <- compare_syscalls merged_constraint
                  (enumerate (syscall_trace platform1)) (syscall_trace platform2) ;;
    if negb ok_trace then ret (false, Some "inequivalent syscall traces")
    else
      ok_mem <- compare_mem (state_mem state1) (state_mem state2) merged_constraint ;;
      if negb ok_mem then ret (false, Some "inequivalent memory")
      else ret (true, None).

End Comparators.

(** ** CPUs *)

(** A CPU object: its canonical registers, the declared width of each
    register ([regfile.sizeof]) and the register values. *)
Record Cpu : Type := mkCpu {
  canonical_registers : list string;
  regfile_sizeof : string -> Z;
  registers : string -> Expr
}.

Definition read_register (c : Cpu) (reg : string) : Expr := registers c reg.

Definition write_register (c : Cpu) (reg : string) (v : Expr) : Cpu :=
  mkCpu (canonical_registers c) (regfile_sizeof c) (<[reg := v]> (registers c)).

(** The mutable objects: CPUs and states, by identity. *)
Record Heap : Type := mkHeap {
  cpus : nat -> Cpu;
  states : nat -> State
}.

(** [state.cpu.write_register(reg, v)] *)
Definition write_state_register (state : nat) (reg : string) (v : Expr) (h : Heap) : Heap :=
  let c := state_cpu (states h state) in
  mkHeap (<[c := write_register (cpus h c) reg v]> (cpus h)) (states h).

(** [state.constraints = cs] *)
Definition set_state_constraints (state : nat) (cs : ConstraintSet) (h : Heap) : Heap :=
  let s := states h state in
  mkHeap (cpus h)
    (<[state := mkState (state_cpu s) (state_mem s) (state_platform s) cs]> (states h)).

(** [isinstance(val1, BitVec) and isinstance(val2, BitVec)] with
    [val1.size != val2.size]: the assertion of [merge_cpu] fails. *)
Definition size_mismatch (val1 val2 : Expr) : bool :=
  match bitvec_size val1, bitvec_size val2 with
  | Some size1, Some size2 => negb (size1 =? size2)
  | _, _ => false
  end.

(** [issymbolic(val1) or issymbolic(val2) or val1 != val2]; the comparison
    is reached on two concrete values only. *)
Definition merge_required (val1 val2 : Expr) : bool :=
  issymbolic val1 || issymbolic val2 ||
  match concrete_value val1, concrete_value val2 with
  | Some x, Some y => negb (x =? y)
  | _, _ => true
  end.

(** The value [merge_cpu] writes for a register of declared width [size]. *)
Definition merged_value (size : Z) (exp1 val1 val2 : Expr) : Expr :=
  if size =? 1 then ITE exp1 val1 val2 else ITEBV size exp1 val1 val2.

(** The body of the loop of [merge_cpu], for one register. *)
Definition merge_register (cpu1 cpu2 state : nat) (exp1 : Expr) (reg : string)
    (h : Heap) : Outcome unit * Heap :=
  let val1 := read_register (cpus h cpu1) reg in
  let val2 := read_register (cpus h cpu2) reg in
  if size_mismatch val1 val2 then (Raise AssertionError, h)
  else if merge_required val1 val2 then
    (Ok tt, write_state_register state reg
              (merged_value (regfile_sizeof (cpus h cpu1) reg) exp1 val1 val2) h)
  else (Ok tt, h).

Fixpoint merge_registers (cpu1 cpu2 state : nat) (exp1 : Expr) (regs : list string)
    (h : Heap) : Outcome unit * Heap :=
  match regs with
  | [] => (Ok tt, h)
  | reg :: regs' =>
      match merge_register cpu1 cpu2 state exp1 reg h with
      | (Ok _, h') => merge_registers cpu1 cpu2 state exp1 regs' h'
      | (Raise e, h') => (Raise e, h')
      | (OutOfFuel, h') => (OutOfFuel, h')
      end
  end.

(** [merge_cpu(cpu1, cpu2, state, exp1)]: the outcome and the heap it
    leaves, also when it raises. *)
Definition merge_cpu (cpu1 cpu2 state : nat) (exp1 : Expr) (h : Heap)
    : Outcome unit * Heap :=
  merge_registers cpu1 cpu2 state exp1 (canonical_registers (cpus h cpu1)) h.

(** [merge(state1, state2, exp1, merged_constraint)]; it returns the
    reference of the merged state. *)
Definition merge (state1 state2 : nat) (exp1 : Expr) (merged_constraint : ConstraintSet)
    (h : Heap) : Outcome nat * Heap :=
  let merged_state := state1 in
  match merge_cpu (state_cpu (states h state1)) (state_cpu (states h state2))
          merged_state exp1 h with
  | (Ok _, h') => (Ok merged_state, set_state_constraints merged_state merged_constraint h')
  | (Raise e, h') => (Raise e, h')
  | (OutOfFuel, h') => (OutOfFuel, h')
  end.

(** ** Notions used to state the properties *)

(** The elements of [l] a short-circuiting loop visits: all of them up to
    and including the first one that fails [p]. *)
Fixpoint until_first_failure {A} (p : A -> bool) (l : list A) : list A :=
  match l with
  | [] => []
  | x :: l' => x :: (if p x then until_first_failure p l' else [])
  end.

(** The socket reached from [s] after following [n] peer references. *)
Fixpoint peer_at (h : SocketStore) (n : nat) (s : option nat) : option nat :=
  match n with
  | O => s
  | S n' =>
      match s with
      | None => None
      | Some i => peer_at h n' (peer (h i))
      end
  end.

(** The conjunction of a non-empty sequence, nested to the left:
    [((c0 & c1) & c2) & ...]. *)
Definition conjunction (c0 : Expr) (cs : list Expr) : Expr := foldl py_and c0 cs.

(** Two maps agree: same identity attributes, same concrete bytes over
    [start, end). *)
Definition maps_agree (m1 m2 : MemoryMap) : Prop :=
  map_name m1 = map_name m2 /\ map_perms m1 = map_perms m2 /\
  map_start m1 = map_start m2 /\ map_end m1 = map_end m2 /\
  map_slice m1 (map_start m1) (map_end m1) = map_slice m2 (map_start m2) (map_end m2).

(** The addresses that carry a symbolic byte in a memory. *)
Definition symbolic_keys (m : MemoryObj) : list Z := (symbols_items m).*1.

(** The union of the symbolic addresses of two memories, each address
    once: those of the first memory, then those of the second one that the
    first one does not have. *)
Definition symbolic_addresses (mem1 mem2 : MemoryObj) : list Z :=
  symbolic_keys mem1 ++ filter (fun a => a ∉ symbolic_keys mem1) (symbolic_keys mem2).

(** The query on the equality of the bytes the two memories hold at [addr]. *)
Definition byte_query (mem1 mem2 : MemoryObj) (merged_constraint : ConstraintSet)
    (addr : Z) : Query :=
  (merged_constraint,
   py_eq (default (PyInt 0) (head (read mem1 addr 1)))
         (default (PyInt 0) (head (read mem2 addr 1)))).

(** A read of one byte at [addr] yields one value, in both memories. *)
Definition reads_one_byte (mem1 mem2 : MemoryObj) (addr : Z) : Prop :=
  length (read mem1 addr 1) = 1%nat /\ length (read mem2 addr 1) = 1%nat.

Section ComparatorNotions.

Variable must_be_true : ConstraintSet -> Expr -> bool.

(** The query on the equality of a pair of buffer elements, and its answer. *)
Definition buffer_query (cs : ConstraintSet) (p : Expr * Expr) : Query :=
  (cs, py_eq p.1 p.2).

Definition answer (q : Query) : bool := must_be_true q.1 q.2.

(** Every query of a log but its last one was answered true: nothing was
    asked after a negative answer. *)
Definition stops_at_first_no (log : list Query) : Prop :=
  forall j q, log !! j = Some q -> (S j < length log)%nat -> answer q = true.

(** The answer of the solver on the bytes at [addr]. *)
Definition byte_answer (mem1 mem2 : MemoryObj) (merged_constraint : ConstraintSet)
    (addr : Z) : bool :=
  answer (byte_query mem1 mem2 merged_constraint addr).

(** Two syscall entries agree: same name, same descriptor, and data
    buffers that [compare_buffers] finds equal. *)
Definition syscalls_agree (cs : ConstraintSet)
    (p : (string * Z * list Expr) * (string * Z * list Expr)) : bool :=
  let '((name1, fd1, data1), (name2, fd2, data2)) := p in
  bool_decide (name1 = name2) && bool_decide (fd1 = fd2) &&
  match outcome (compare_buffers must_be_true cs data1 data2) with
  | Ok true => true
  | _ => false
  end.

(** Walking the two peer chains in lockstep, the comparison stops at depth
    [n]: a socket is absent there, or the buffers there compare unequal. *)
Definition halts_at (h : SocketStore) (cs : ConstraintSet) (n : nat)
    (socket1 socket2 : option nat) : Prop :=
  match peer_at h n socket1, peer_at h n socket2 with
  | Some a, Some b =>
      outcome (compare_buffers must_be_true cs (buffer (h a)) (buffer (h b))) = Ok false
  | _, _ => True
  end.

End ComparatorNotions.

(** Heap [h'] is heap [h] but for the values of the registers [written] of
    the CPU [dst]: the states, every other CPU, and the register names and
    widths of [dst] are those of [h]. *)
Definition unchanged_except (dst : nat) (written : list string) (h h' : Heap) : Prop :=
  states h' = states h /\
  (forall c, c <> dst -> cpus h' c = cpus h c) /\
  canonical_registers (cpus h' dst) = canonical_registers (cpus h dst) /\
  regfile_sizeof (cpus h' dst) = regfile_sizeof (cpus h dst) /\
  (forall reg, reg ∉ written ->
     read_register (cpus h' dst) reg = read_register (cpus h dst) reg).

(** ** Sample objects *)

(** A solver that decides by the shape of the expression: a Python [bool]
    is its own answer, an equality holds when both sides are the same
    expression. *)
Definition syntactic_solver (cs : ConstraintSet) (e : Expr) : bool :=
  match e with
  | PyBool b => b
  | BoolEqual a b => bool_decide (a = b)
  | _ => false
  end.

(** The store in which every socket has an empty buffer and socket 0 as
    its peer: socket 0 is its own peer. *)
Definition self_peered : SocketStore := fun _ => mkSocket [] (Some 0%nat).

(** Two sockets, each followed by one peer with the same bytes. *)
Definition chained_sockets : SocketStore := fun i =>
  match i with
  | 0%nat => mkSocket [PyInt 65] (Some 2%nat)
  | 1%nat => mkSocket [PyInt 65] (Some 3%nat)
  | _ => mkSocket [PyInt 66] None
  end.

(** Two memories with the same map; the first one has a symbolic byte at
    4096, the second one at 4096 and at 4097. *)
Definition sample_map : MemoryMap := mkMemoryMap "stack" "rw" 4096 4100 [0; 1; 2; 3].

Definition sample_read (addr size : Z) : list Expr :=
  if addr =? 4096 then [BitVecVariable 8 "x"]
  else if addr =? 4097 then [BitVecVariable 8 "y"]
  else [PyInt 0].

Definition sample_mem1 : MemoryObj :=
  SMemory [sample_map] sample_read [(4096, BitVecVariable 8 "x")].


Definition sample_platform : Platform := mkPlatform None None ∅ [].

(** CPUs with two 64-bit registers and a 1-bit flag. *)
Definition sample_sizeof (reg : string) : Z := if String.eqb reg "ZF" then 1 else 64.

Definition sample_cpu (r0 r1 zf : Expr) : Cpu :=
  mkCpu ["R0"; "R1"; "ZF"] sample_sizeof
    (fun reg => if String.eqb reg "R0" then r0
                else if String.eqb reg "R1" then r1 else zf).

Definition sample_states (i : nat) : State :=
  mkState (Nat.min i 2) sample_mem1 sample_platform (mkConstraintSet [BoolVariable "p"]).

(** State 0 owns CPU 0, state 1 owns CPU 1, the other states CPU 2.  CPU 0
    and CPU 1 differ in [R0] and in the flag. *)
Definition sample_heap : Heap :=
  mkHeap (fun c => match c with
                   | 0%nat => sample_cpu (PyInt 5) (PyInt 9) (PyBool true)
                   | 1%nat => sample_cpu (PyInt 7) (PyInt 9) (PyBool false)
                   | _ => sample_cpu (PyInt 0) (PyInt 0) (PyBool false)
                   end)
         sample_states.

(** As [sample_heap], but [R1] is a 32-bit vector in CPU 0 and a 64-bit
    vector in CPU 1. *)
Definition clashing_heap : Heap :=
  mkHeap (fun c => match c with
                   | 0%nat => sample_cpu (PyInt 5) (BitVecVariable 32 "a") (PyBool true)
                   | 1%nat => sample_cpu (PyInt 7) (BitVecVariable 64 "b") (PyBool false)
                   | _ => sample_cpu (PyInt 0) (PyInt 0) (PyBool false)
                   end)
         sample_states.

Section SocketNotions.

Variable must_be_true : ConstraintSet -> Expr -> bool.

(** Down to depth [n], not included, both peer chains have a socket at
    every depth and the buffers of the two compare equal. *)
Definition equal_upto (h : SocketStore) (cs : ConstraintSet) (n : nat)
    (socket1 socket2 : option nat) : Prop :=
  forall k, (k < n)%nat ->
    exists a b, peer_at h k socket1 = Some a /\ peer_at h k socket2 = Some b /\
      outcome (compare_buffers must_be_true cs (buffer (h a)) (buffer (h b))) = Ok true.

(** The verdict the comparison reaches at depth [n]: equal when both
    chains end there, unequal when one chain ends there or the buffers there
    compare unequal. *)
Definition verdict_at (h : SocketStore) (cs : ConstraintSet) (n : nat)
    (socket1 socket2 : option nat) (verdict : bool) : Prop :=
  match peer_at h n socket1, peer_at h n socket2 with
  | None, None => verdict = true
  | Some a, Some b =>
      verdict = false /\
      outcome (compare_buffers must_be_true cs (buffer (h a)) (buffer (h b))) = Ok false
  | _, _ => verdict = false
  end.

End SocketNotions.

(** The reasons [is_merge_possible] gives. *)
Definition merge_reasons : list string :=
  ["inequivalent socket operations"; "inequivalent symbolic files";
   "inequivalent syscall trace lengths"; "inequivalent syscall traces";
   "inequivalent memory"].

(** Two concrete memories with the same map. *)
Definition concrete_mem1 : MemoryObj := Memory [sample_map] sample_read.
Definition concrete_mem2 : MemoryObj :=
  Memory [mkMemoryMap "stack" "rw" 4096 4100 [0; 1; 2; 3; 4]] sample_read.

(** The result of [is_merge_possible] as a table of the results of its
    checks, read in their order. *)
Definition verdict_of (sockets_in sockets_out : Outcome bool)
    (same_files same_length : bool) (trace memory : Outcome bool)
    : Outcome (bool * option string) :=
  match sockets_in with
  | Ok true =>
      match sockets_out with
      | Ok true =>
          if negb same_files then Ok (false, Some "inequivalent symbolic files")
          else if negb same_length
          then Ok (false, Some "inequivalent syscall trace lengths")
          else
            match trace with
            | Ok true =>
                match memory with
                | Ok true => Ok (true, None)
                | Ok false => Ok (false, Some "inequivalent memory")
                | Raise e => Raise e
                | OutOfFuel => OutOfFuel
                end
            | Ok false => Ok (false, Some "inequivalent syscall traces")
            | Raise e => Raise e
            | OutOfFuel => OutOfFuel
            end
      | Ok false => Ok (false, Some "inequivalent socket operations")
      | Raise e => Raise e
      | OutOfFuel => OutOfFuel
      end
  | Ok false => Ok (false, Some "inequivalent socket operations")
  | Raise e => Raise e
  | OutOfFuel => OutOfFuel
  end.



(** ** The command line of the Ethereum analysis (manticore/ethereum/cli.py) *)

(** The detector classes the module imports. *)
Inductive Detector : Type :=
| DetectInvalid
| DetectIntegerOverflow
| DetectUninitializedStorage
| DetectUninitializedMemory
| DetectReentrancySimple
| DetectReentrancyAdvanced
| DetectUnusedRetVal
| DetectSuicidal
| DetectDelegatecall
| DetectExternalCallAndLeak
| DetectEnvInstruction
| DetectRaceCondition
| DetectManipulableBalance.

#[global] Instance Detector_eq_dec : EqDecision Detector.
Proof. solve_decision. Defined.

Definition get_detectors_classes : list Detector :=
  [DetectInvalid; DetectIntegerOverflow; DetectUninitializedStorage;
   DetectUninitializedMemory; DetectReentrancySimple; DetectReentrancyAdvanced;
   DetectUnusedRetVal; DetectSuicidal; DetectDelegatecall;
   DetectExternalCallAndLeak; DetectEnvInstruction; DetectManipulableBalance].

(** A Python dict with string keys, as its items in insertion order:
    [d[k] = v] replaces the value of a key that is present, where it is,
    and adds a new key at the end. *)
Definition dict_set {V} (d : list (string * V)) (k : string) (v : V) : list (string * V) :=
  if bool_decide (k ∈ d.*1)
  then (fun kv : string * V => if bool_decide (kv.1 = k) then (k, v) else kv) <$> d
  else d ++ [(k, v)].

(** [{k: v for (k, v) in items}] *)
Definition dict_of {V} (items : list (string * V)) : list (string * V) :=
  foldl (fun d kv => dict_set d kv.1 kv.2) [] items.

(** [s.split(",")]: the pieces between the commas, empty pieces included;
    the comma is the character 44. *)
Fixpoint split_comma (s : string) : list string :=
  match s with
  | EmptyString => [EmptyString]
  | String c s' =>
      if Ascii.eqb c (Ascii.ascii_of_nat 44) then EmptyString :: split_comma s'
      else
        match split_comma s' with
        | piece :: pieces => String c piece :: pieces
        | [] => [String c EmptyString]
        end
  end.

(** The arguments of the command line that [choose_detectors] and
    [ethereum_main] test or change; the values that [ethereum_main] only
    hands on to the analysis (workspace, contract, transaction limit,
    account, preconstraint) are left out. *)
Record Args : Type := mkArgs {
  quick_mode : bool;
  avoid_constant : bool;
  exclude_all : bool;
  only_alive_testcases : bool;
  verbose_trace : bool;
  limit_loops : bool;
  detectors_to_exclude : option string;
  argv : list string;
  txnocoverage : bool;
  txnoether : bool;
  no_testcases : bool
}.

(** What the module raises: the [Exception] of [choose_detectors], with
    the name it rejects and the names it knows, and the [IndexError] of
    [args.argv[0]]. *)
Inductive CliError : Type :=
| NotADetector (e : string) (arguments : list string)
| ArgvIndexError.

Inductive Raised (A : Type) : Type :=
| Returns (a : A)
| Raises (e : CliError).
Arguments Returns {A} a.
Arguments Raises {A} e.

(** The truth value of [args.detectors_to_exclude]: [None] and the empty
    string are false. *)
Definition truthy (s : option string) : bool :=
  match s with
  | None => false
  | Some s => negb (bool_decide (s = EmptyString))
  end.

Section Cli.

(** The class attribute [ARGUMENT] of the detectors, which the module
    reads and does not define. *)
Variable ARGUMENT : Detector -> string.

(** [for e in exclude: if e not in arguments: raise Exception(...)] *)
Fixpoint check_excluded (exclude arguments : list string) : Raised unit :=
  match exclude with
  | [] => Returns tt
  | e :: exclude' =>
      if bool_decide (e ∉ arguments) then Raises (NotADetector e arguments)
      else check_excluded exclude' arguments
  end.

(** [for arg, detector_cls in detectors.items(): if arg not in exclude: ...] *)
Fixpoint detectors_not_excluded (items : list (string * Detector)) (exclude : list string)
    : list Detector :=
  match items with
  | [] => []
  | (arg, detector_cls) :: items' =>
      if bool_decide (arg ∉ exclude)
      then detector_cls :: detectors_not_excluded items' exclude
      else detectors_not_excluded items' exclude
  end.

Definition choose_detectors (args : Args) : Raised (list Detector) :=
  let all_detector_classes := get_detectors_classes in
  let detectors := dict_of ((fun d => (ARGUMENT d, d)) <$> all_detector_classes) in
  let arguments := detectors.*1 in
  if negb (exclude_all args) then
    if truthy (detectors_to_exclude args) then
      let exclude := split_comma (default EmptyString (detectors_to_exclude args)) in
      match check_excluded exclude arguments with
      | Raises e => Raises e
      | Returns _ => Returns (detectors_not_excluded detectors exclude)
      end
    else Returns (detectors_not_excluded detectors [])
  else Returns [].

(** The plugins [ethereum_main] creates. *)
Inductive Plugin : Type :=
| KeepOnlyIfStorageChanges
| VerboseTrace
| LoopDepthLimiter
| Profiler
| FilterFunctions (regexp depth mutability : string) (include : bool).

(** What [m.plugins] holds: plugins and detectors. *)
Inductive Registered : Type :=
| APlugin (p : Plugin)
| ADetector (d : Detector).

(** The calls [ethereum_main] makes on the analysis [m] and on the
    configuration, in order.  [MultiTxAnalysis] carries [args.argv[0]],
    [tx_use_coverage], [tx_send_ether] and [compile_args]. *)
Inductive Call : Type :=
| SetEvmOog (value : string)
| RegisterPlugin (p : Plugin)
| RegisterDetector (d : Detector)
| MultiTxAnalysis (source : string) (tx_use_coverage tx_send_ether : bool)
    (compile_args : Args)
| Finalize (only_alive_states : bool)
| Kill
| UnregisterDetector (d : Detector)
| UnregisterPlugin (p : Registered).

(** [if args.quick_mode: ...]: the arguments [ethereum_main] goes on with. *)
Definition apply_quick_mode (args : Args) : Args :=
  if quick_mode args then
    mkArgs (quick_mode args) true true true (verbose_trace args) (limit_loops args)
      (detectors_to_exclude args) (argv args) (txnocoverage args) (txnoether args)
      (no_testcases args)
  else args.

(** [ethereum_main(args, logger)], as the calls it has made when it
    returns or raises.  [profile] is [consts.profile]; [m_detectors] and
    [m_plugins] are what [m.detectors] and [m.plugins] hold once the
    analysis is over.  The calls on [m] are taken to return; the messages
    to the logger and the two context managers are left out. *)
Definition ethereum_main (profile : bool) (m_detectors : list Detector)
    (m_plugins : list Registered) (args0 : Args) : Raised unit * list Call :=
  let args := apply_quick_mode args0 in
  let calls :=
    (if quick_mode args0 then [SetEvmOog "ignore"] else []) ++
    [RegisterPlugin KeepOnlyIfStorageChanges] ++
    (if verbose_trace args then [RegisterPlugin VerboseTrace] else []) ++
    (if limit_loops args then [RegisterPlugin LoopDepthLimiter] else []) in
  match choose_detectors args with
  | Raises e => (Raises e, calls)
  | Returns detectors_to_run =>
      let calls :=
        calls ++ (RegisterDetector <$> detectors_to_run) ++
        (if profile then [RegisterPlugin Profiler] else []) ++
        (if avoid_constant args
         then [RegisterPlugin (FilterFunctions ".*" "human" "constant" false)]
         else []) in
      match argv args with
      | [] => (Raises ArgvIndexError, calls)
      | source :: _ =>
          (Returns tt,
           calls ++
           [MultiTxAnalysis source (negb (txnocoverage args)) (negb (txnoether args)) args] ++
           (if negb (no_testcases args) then [Finalize (only_alive_testcases args)]
            else [Kill]) ++
           (UnregisterDetector <$> m_detectors) ++
           (UnregisterPlugin <$> m_plugins))
      end
  end.

End Cli.

(** Names for the detectors, two by two distinct. *)
Definition sample_ARGUMENT (d : Detector) : string :=
  match d with
  | DetectInvalid => "invalid"
  | DetectIntegerOverflow => "overflow"
  | DetectUninitializedStorage => "uninitialized-storage"
  | DetectUninitializedMemory => "uninitialized-memory"
  | DetectReentrancySimple => "reentrancy"
  | DetectReentrancyAdvanced => "reentrancy-adv"
  | DetectUnusedRetVal => "unused-return"
  | DetectSuicidal => "suicidal"
  | DetectDelegatecall => "delegatecall"
  | DetectExternalCallAndLeak => "ext-call-leak"
  | DetectEnvInstruction => "env-instr"
  | DetectRaceCondition => "race-condition"
  | DetectManipulableBalance => "lockdrop"
  end.

Definition sample_args (exclude : option string) : Args :=
  mkArgs false false false false true false exclude ["contract.sol"] false false false.

(** * Properties *)

(** ** The monad of comparisons *)

Lemma bind_Ok {A B} (m : Cmp A) (k : A -> Cmp B) a log :
  m = (Ok a, log) -> bind m k = ((k a).1, log ++ (k a).2).
Proof. intros ->. unfold bind. by destruct (k a). Qed.

Lemma bind_Raise {A B} (m : Cmp A) (k : A -> Cmp B) e log :
  m = (Raise e, log) -> bind m k = (Raise e, log).
Proof. by intros ->. Qed.

Lemma bind_OutOfFuel {A B} (m : Cmp A) (k : A -> Cmp B) log :
  m = (OutOfFuel, log) -> bind m k = (OutOfFuel, log).
Proof. by intros ->. Qed.

Lemma until_first_failure_all {A} (p : A -> bool) (l : list A) :
  forallb p l = true -> until_first_failure p l = l.
Proof.
  induction l as [|x l IH]; simpl; [done|].
  intros [Hx Hl]%andb_prop. rewrite Hx. f_equal. by apply IH.
Qed.

Lemma until_first_failure_prefix {A} (p : A -> bool) (l : list A) :
  until_first_failure p l = take (length (until_first_failure p l)) l.
Proof.
  induction l as [|x l IH]; simpl; [done|].
  destruct (p x); simpl; [by rewrite <- IH | by rewrite take_0].
Qed.

Lemma until_first_failure_passed {A} (p : A -> bool) (l : list A) j x :
  until_first_failure p l !! j = Some x ->
  (S j < length (until_first_failure p l))%nat -> p x = true.
Proof.
  revert j. induction l as [|y l IH]; intros j; simpl; [done|].
  destruct j as [|j]; simpl.
  - intros [= ->]. destruct (p x); [done | simpl; lia].
  - destruct (p y); simpl; [| by rewrite lookup_nil].
    intros Hj Hlen. apply (IH j); [done | lia].
Qed.

Section ComparatorProperties.

Variable must_be_true : ConstraintSet -> Expr -> bool.

(** *** compare_buffers *)

Lemma compare_zipped_eq cs ps :
  compare_zipped must_be_true cs ps =
  (Ok (forallb (fun p => answer must_be_true (buffer_query cs p)) ps),
   buffer_query cs <$>
     until_first_failure (fun p => answer must_be_true (buffer_query cs p)) ps).
Proof.
  induction ps as [|[b1 b2] ps IH]; [done|].
  cbn [compare_zipped forallb until_first_failure fmap list_fmap].
  unfold ask, bind. unfold answer at 1 3. cbn [buffer_query fst snd].
  destruct (must_be_true cs (py_eq b1 b2)); cbn [negb andb]; [|done].
  by rewrite IH.
Qed.

Lemma stops_at_first_no_fmap {A} (f : A -> Query) (l : list A) :
  stops_at_first_no must_be_true
    (f <$> until_first_failure (fun x => answer must_be_true (f x)) l).
Proof.
  intros j q Hq Hlen. rewrite length_fmap in Hlen.
  apply list_lookup_fmap_Some in Hq as (x & -> & Hx).
  by apply (until_first_failure_passed _ _ _ _ Hx).
Qed.

Lemma compare_buffers_Ok cs buffer1 buffer2 :
  exists b, outcome (compare_buffers must_be_true cs buffer1 buffer2) = Ok b.
Proof.
  unfold compare_buffers.
  destruct (negb _); [by exists false|].
  rewrite compare_zipped_eq. eauto.
Qed.

End ComparatorProperties.

Lemma forallb_zip_lookup {A B} (p : A * B -> bool) (l1 : list A) (l2 : list B) :
  forallb p (zip l1 l2) = true <->
  forall i x y, l1 !! i = Some x -> l2 !! i = Some y -> p (x, y) = true.
Proof.
  revert l2. induction l1 as [|a l1 IH]; intros [|b l2]; simpl.
  - split; [intros _ i x y Hx | done]. by rewrite lookup_nil in Hx.
  - split; [intros _ i x y Hx | done]. by rewrite lookup_nil in Hx.
  - split; [intros _ i x y _ Hy | done]. by rewrite lookup_nil in Hy.
  - rewrite andb_true_iff, IH. split.
    + intros [Hab H] [|i] x y; simpl; [by intros [= ->] [= ->] | apply H].
    + intros H. split; [by apply (H 0%nat) | intros i; apply (H (S i))].
Qed.

(** C9. [compare_buffers] answers false at once, without a query, when the
    lengths differ.  On buffers of equal length it returns a boolean, true
    exactly when the solver confirms the equality of the elements at every
    position; it asks position after position and stops at the first
    negative answer.  Two empty buffers compare equal. *)
Theorem compare_buffers_correct (must_be_true : ConstraintSet -> Expr -> bool)
    (cs : ConstraintSet) (buffer1 buffer2 : list Expr) :
  let r := compare_buffers must_be_true cs buffer1 buffer2 in
  (length buffer1 <> length buffer2 -> r = (Ok false, [])) /\
  (length buffer1 = length buffer2 ->
     exists b, outcome r = Ok b /\
       (b = true <->
        forall i x y, buffer1 !! i = Some x -> buffer2 !! i = Some y ->
                      must_be_true cs (py_eq x y) = true) /\
       queries r =
         buffer_query cs <$>
           until_first_failure (fun p => answer must_be_true (buffer_query cs p))
             (zip buffer1 buffer2) /\
       stops_at_first_no must_be_true (queries r)) /\
  compare_buffers must_be_true cs [] [] = (Ok true, []).
Proof.
  cbv zeta. unfold compare_buffers. split; [|split; [|done]].
  - intros Hne. apply Nat.eqb_neq in Hne. by rewrite Hne.
  - intros Heq. apply Nat.eqb_eq in Heq. rewrite Heq. cbn [negb].
    rewrite compare_zipped_eq. eexists. split; [done|]. split; [|split; [done|]].
    + rewrite forallb_zip_lookup. done.
    + apply stops_at_first_no_fmap.
Qed.

Lemma compare_buffers_correct_witness :
  outcome (compare_buffers (fun _ e => bool_decide (e = PyBool true))
             (mkConstraintSet []) [PyInt 65; PyInt 66] [PyInt 65; PyInt 67]) = Ok false /\
  compare_buffers (fun _ _ => true) (mkConstraintSet []) [PyInt 65] [] = (Ok false, []).
Proof.
  split.
  - destruct (compare_buffers_correct (fun _ e => bool_decide (e = PyBool true))
                (mkConstraintSet []) [PyInt 65; PyInt 66] [PyInt 65; PyInt 67])
      as (_ & H & _).
    destruct (H eq_refl) as (b & Hb & Hiff & _).
    rewrite Hb. f_equal. destruct b; [|done].
    destruct Hiff as [Hall _].
    specialize (Hall eq_refl 1%nat (PyInt 66) (PyInt 67) eq_refl eq_refl).
    vm_compute in Hall. discriminate Hall.
  - apply (compare_buffers_correct (fun _ _ => true) (mkConstraintSet [])
             [PyInt 65] []).
    simpl. lia.
Defined.

(** *** compare_sockets *)

Section SocketProperties.

Variable must_be_true : ConstraintSet -> Expr -> bool.
Variable h : SocketStore.
Variable cs : ConstraintSet.

(** One unfolding of [compare_sockets] on two present sockets. *)
Lemma compare_sockets_step fuel s1 s2 :
  outcome (compare_sockets must_be_true (S fuel) h cs (Some s1) (Some s2)) =
  match outcome (compare_buffers must_be_true cs (buffer (h s1)) (buffer (h s2))) with
  | Ok true => outcome (compare_sockets must_be_true fuel h cs (peer (h s1)) (peer (h s2)))
  | Ok false => Ok false
  | Raise e => Raise e
  | OutOfFuel => OutOfFuel
  end.
Proof.
  cbn [compare_sockets].
  destruct (compare_buffers must_be_true cs (buffer (h s1)) (buffer (h s2)))
    as [[[|]| |] log]; unfold bind, outcome; cbn [negb fst]; try done.
  by destruct (compare_sockets _ _ _ _ _ _).
Qed.

Lemma compare_sockets_halts fuel socket1 socket2 b :
  outcome (compare_sockets must_be_true fuel h cs socket1 socket2) = Ok b ->
  exists n, halts_at must_be_true h cs n socket1 socket2.
Proof.
  revert socket1 socket2.
  induction fuel as [|fuel IH]; intros socket1 socket2; [done|].
  destruct socket1 as [s1|], socket2 as [s2|]; try (by intros _; exists 0%nat).
  rewrite compare_sockets_step.
  destruct (outcome (compare_buffers _ _ _ _)) as [[|]| |] eqn:Hbuf; try done.
  - intros [n Hn]%IH. exists (S n). exact Hn.
  - intros _. exists 0%nat. unfold halts_at. simpl. exact Hbuf.
Qed.

Lemma halts_compare_sockets n socket1 socket2 :
  halts_at must_be_true h cs n socket1 socket2 ->
  exists b, outcome (compare_sockets must_be_true (S n) h cs socket1 socket2) = Ok b.
Proof.
  revert socket1 socket2.
  induction n as [|n IH]; intros socket1 socket2 Hn;
    (destruct socket1 as [s1|]; [|by eexists]);
    (destruct socket2 as [s2|]; [|by eexists]);
    rewrite compare_sockets_step;
    destruct (compare_buffers_Ok must_be_true cs (buffer (h s1)) (buffer (h s2)))
      as [[|] Hbuf]; rewrite Hbuf; try (by eexists).
  - unfold halts_at in Hn. simpl in Hn. congruence.
  - by apply IH.
Qed.

(** A socket that is its own peer, compared with itself: every buffer
    comparison succeeds and the recursion never reaches an absent peer. *)
Lemma compare_sockets_self_peer fuel s :
  peer (h s) = Some s ->
  outcome (compare_buffers must_be_true cs (buffer (h s)) (buffer (h s))) = Ok true ->
  outcome (compare_sockets must_be_true fuel h cs (Some s) (Some s)) = OutOfFuel.
Proof.
  intros Hpeer Hbuf. induction fuel as [|fuel IH]; [done|].
  by rewrite compare_sockets_step, Hbuf, Hpeer.
Qed.

End SocketProperties.

(** C1, as stated, fails: on a socket that is its own peer, compared with
    itself, no amount of recursion yields a boolean. *)
Lemma compare_sockets_cyclic_never_returns :
  ~ exists fuel b,
      outcome (compare_sockets (fun _ _ => true) fuel self_peered (mkConstraintSet [])
                 (Some 0%nat) (Some 0%nat)) = Ok b.
Proof.
  intros (fuel & b & H).
  rewrite (compare_sockets_self_peer _ self_peered) in H; done.
Qed.

(** C1, amended. [compare_sockets] returns a boolean exactly when, walking
    the two peer chains in lockstep, a depth is reached at which a socket is
    absent or the two buffers compare unequal; the recursion then needs one
    call more than that depth.  This is so whenever one of the two peer
    chains is finite. *)
Theorem compare_sockets_terminates_iff (must_be_true : ConstraintSet -> Expr -> bool)
    (h : SocketStore) (cs : ConstraintSet) (socket1 socket2 : option nat) :
  ((exists fuel b,
      outcome (compare_sockets must_be_true fuel h cs socket1 socket2) = Ok b) <->
   (exists n, halts_at must_be_true h cs n socket1 socket2)) /\
  (forall n, peer_at h n socket1 = None \/ peer_at h n socket2 = None ->
     exists b,
       outcome (compare_sockets must_be_true (S n) h cs socket1 socket2) = Ok b).
Proof.
  split; [split|].
  - intros (fuel & b & H). by eapply compare_sockets_halts.
  - intros [n Hn]. exists (S n). by apply halts_compare_sockets.
  - intros n Hn. apply halts_compare_sockets. unfold halts_at.
    destruct Hn as [-> | ->]; [done | by destruct (peer_at h n socket1)].
Qed.

Lemma compare_sockets_terminates_iff_witness :
  exists b,
    outcome (compare_sockets (fun _ e => bool_decide (e = PyBool true)) 3
               chained_sockets (mkConstraintSet []) (Some 0%nat) (Some 1%nat)) = Ok b.
Proof.
  apply (compare_sockets_terminates_iff (fun _ e => bool_decide (e = PyBool true))
           chained_sockets (mkConstraintSet []) (Some 0%nat) (Some 1%nat)).
  left. reflexivity.
Defined.

(** ** merge_constraints *)

Lemma conjoin_from_suffix (pre rest : list Expr) (exp : Expr) :
  conjoin_from (pre ++ rest) (seq (length pre) (length rest)) exp =
  Ok (conjunction exp rest).
Proof.
  revert pre exp. induction rest as [|c rest IH]; intros pre exp; [done|].
  cbn [length seq conjoin_from]. unfold getitem.
  rewrite lookup_app_r, Nat.sub_diag by lia. cbn [lookup list_lookup].
  unfold mbind, Outcome_bind.
  replace (pre ++ c :: rest) with ((pre ++ [c]) ++ rest) by by rewrite <- app_assoc.
  replace (S (length pre)) with (length (pre ++ [c])) by (rewrite length_app; simpl; lia).
  apply IH.
Qed.

Lemma conjoin_cons (c0 : Expr) (cs : list Expr) :
  conjoin (mkConstraintSet (c0 :: cs)) = Ok (conjunction c0 cs).
Proof.
  unfold conjoin, range. cbn [constraints getitem length lookup list_lookup].
  unfold mbind, Outcome_bind. rewrite Nat.sub_succ, Nat.sub_0_r.
  apply (conjoin_from_suffix [c0]).
Qed.

Lemma conjoin_nil : conjoin (mkConstraintSet []) = Raise IndexError.
Proof. reflexivity. Qed.

Lemma negb_b2z_eqb (b : bool) : negb (Z.b2z b =? 0) = b.
Proof. by destruct b. Qed.

Lemma holds_and env a b : holds env (BoolAnd a b) = holds env a && holds env b.
Proof. unfold holds. cbn [denote]. apply negb_b2z_eqb. Qed.

Lemma holds_or env a b : holds env (BoolOr a b) = holds env a || holds env b.
Proof. unfold holds. cbn [denote]. apply negb_b2z_eqb. Qed.

Lemma holds_conjunction env (c0 : Expr) (cs : list Expr) :
  holds env (conjunction c0 cs) = forallb (holds env) (c0 :: cs).
Proof.
  unfold conjunction. revert c0. induction cs as [|c cs IH]; intros c0.
  - simpl. by rewrite andb_true_r.
  - cbn [foldl]. rewrite IH. unfold py_and. cbn [forallb].
    rewrite holds_and. by rewrite andb_assoc.
Qed.

(** C3. On two non-empty constraint sets, [merge_constraints] returns the
    conjunction of the expressions of the first one, in order, the
    conjunction of those of the second one, and a constraint set that holds
    one expression: the disjunction of the two conjunctions.  Each
    conjunction, nested to the left, holds exactly under the assignments
    under which every expression of its set holds. *)
Theorem merge_constraints_correct (c0 : Expr) (cs : list Expr)
    (d0 : Expr) (ds : list Expr) :
  merge_constraints (mkConstraintSet (c0 :: cs)) (mkConstraintSet (d0 :: ds)) =
    Ok (conjunction c0 cs, conjunction d0 ds,
        mkConstraintSet [py_or (conjunction c0 cs) (conjunction d0 ds)]) /\
  (forall env, holds env (conjunction c0 cs) = forallb (holds env) (c0 :: cs)) /\
  (forall env, holds env (conjunction d0 ds) = forallb (holds env) (d0 :: ds)).
Proof.
  split; [|split; intros env; apply holds_conjunction].
  unfold merge_constraints. by rewrite !conjoin_cons.
Qed.

(** C4. The one expression of the merged set holds under every assignment
    under which all the expressions of the first set hold, and under every
    assignment under which all those of the second set hold; it is
    satisfiable as soon as one of the two conjunctions is. *)
Theorem merged_constraint_satisfiable (c0 : Expr) (cs : list Expr)
    (d0 : Expr) (ds : list Expr) :
  exists exp1 exp2 merged,
    merge_constraints (mkConstraintSet (c0 :: cs)) (mkConstraintSet (d0 :: ds)) =
      Ok (exp1, exp2, mkConstraintSet [merged]) /\
    (forall env, holds env merged = holds env exp1 || holds env exp2) /\
    (forall env, forallb (holds env) (c0 :: cs) = true \/
                 forallb (holds env) (d0 :: ds) = true -> holds env merged = true) /\
    (satisfiable exp1 \/ satisfiable exp2 -> satisfiable merged).
Proof.
  exists (conjunction c0 cs), (conjunction d0 ds),
    (py_or (conjunction c0 cs) (conjunction d0 ds)).
  split; [|split; [|split]].
  - unfold merge_constraints. by rewrite !conjoin_cons.
  - intros env. apply holds_or.
  - intros env H. unfold py_or. rewrite holds_or, !holds_conjunction.
    apply orb_true_iff. exact H.
  - intros [[env H] | [env H]]; exists env; unfold py_or; rewrite holds_or, H;
      [done | apply orb_true_r].
Qed.

(** C10. When one of the two constraint sets is empty, [merge_constraints]
    raises [IndexError], on the first set as on the second, and returns
    nothing. *)
Theorem merge_constraints_empty (constraints1 constraints2 : ConstraintSet) :
  constraints constraints1 = [] \/ constraints constraints2 = [] ->
  merge_constraints constraints1 constraints2 = Raise IndexError.
Proof.
  destruct constraints1 as [l1], constraints2 as [l2]. cbn [constraints].
  unfold merge_constraints. intros [-> | ->]; [done|].
  destruct l1 as [|c0 cs]; [done|]. by rewrite conjoin_cons.
Qed.

Lemma merge_constraints_empty_witness :
  merge_constraints (mkConstraintSet [BoolVariable "a"]) (mkConstraintSet []) =
  Raise IndexError.
Proof.
  apply (merge_constraints_empty (mkConstraintSet [BoolVariable "a"]) (mkConstraintSet [])).
  right. reflexivity.
Defined.

(** ** compare_mem *)

Lemma sorted_length (l : list MemoryMap) : length (sorted l) = length l.
Proof.
  assert (Hins : forall m l', length (insert_map m l') = S (length l')).
  { intros m l'. induction l' as [|x l' IH]; simpl; [done|].
    destruct (map_ltb x m); simpl; by rewrite ?IH. }
  induction l as [|m l IH]; simpl; [done|]. by rewrite Hins, IH.
Qed.

Lemma compare_maps_forallb (ps : list (MemoryMap * MemoryMap)) :
  compare_maps ps =
  forallb (fun p => map_eqb p.1 p.2 &&
                    bool_decide (map_slice p.1 (map_start p.1) (map_end p.1) =
                                 map_slice p.2 (map_start p.2) (map_end p.2))) ps.
Proof.
  induction ps as [|[m1 m2] ps IH]; [done|].
  cbn [compare_maps forallb fst snd]. rewrite IH.
  destruct (map_eqb m1 m2); [|done]. by destruct (bool_decide _).
Qed.

Lemma maps_agree_decide (m1 m2 : MemoryMap) :
  map_eqb m1 m2 &&
  bool_decide (map_slice m1 (map_start m1) (map_end m1) =
               map_slice m2 (map_start m2) (map_end m2)) = true <-> maps_agree m1 m2.
Proof.
  unfold map_eqb, maps_agree.
  rewrite !andb_true_iff, !bool_decide_eq_true. tauto.
Qed.

Lemma compare_maps_true (l1 l2 : list MemoryMap) :
  compare_maps (zip l1 l2) = true <->
  forall i m1 m2, l1 !! i = Some m1 -> l2 !! i = Some m2 -> maps_agree m1 m2.
Proof.
  rewrite compare_maps_forallb, forallb_zip_lookup.
  split; intros H i m1 m2 H1 H2; apply maps_agree_decide, (H i); done.
Qed.


Section MemoryProperties.

Variable must_be_true : ConstraintSet -> Expr -> bool.
Variables mem1 mem2 : MemoryObj.
Variable mc : ConstraintSet.

Lemma compare_byte_vals_one addr :
  reads_one_byte mem1 mem2 addr ->
  compare_byte_vals must_be_true mem1 mem2 addr mc =
  (Ok (byte_answer must_be_true mem1 mem2 mc addr), [byte_query mem1 mem2 mc addr]).
Proof.
  unfold reads_one_byte, compare_byte_vals, byte_answer, byte_query, answer.
  destruct (read mem1 addr 1) as [|v1 [|]]; intros [? ?]; try done.
  destruct (read mem2 addr 1) as [|v2 [|]]; try done.
  unfold ask, bind. simpl.
  by destruct (must_be_true mc (py_eq v1 v2)).
Qed.

Lemma compare_symbols1_eq (items : list (Z * Expr)) (checked : list Z) :
  (forall a, a ∈ items.*1 -> reads_one_byte mem1 mem2 a) ->
  compare_symbols1 must_be_true mem1 mem2 mc items checked =
  (Ok (forallb (byte_answer must_be_true mem1 mem2 mc) items.*1,
       checked ++ until_first_failure (byte_answer must_be_true mem1 mem2 mc) items.*1),
   byte_query mem1 mem2 mc <$>
     until_first_failure (byte_answer must_be_true mem1 mem2 mc) items.*1).
Proof.
  revert checked. induction items as [|[a e] items IH]; intros checked Hrd.
  - simpl. by rewrite app_nil_r.
  - cbn [compare_symbols1 fmap list_fmap fst forallb until_first_failure].
    rewrite compare_byte_vals_one by apply Hrd, list_elem_of_here.
    unfold bind. destruct (byte_answer must_be_true mem1 mem2 mc a); cbn [negb andb].
    + rewrite IH by (intros a' Ha'; by apply Hrd, list_elem_of_further).
      cbn [fmap list_fmap app]. by rewrite <- app_assoc.
    + done.
Qed.

Lemma compare_symbols2_eq (items : list (Z * Expr)) (checked : list Z) :
  (forall a, a ∈ items.*1 -> a ∉ checked -> reads_one_byte mem1 mem2 a) ->
  compare_symbols2 must_be_true mem1 mem2 mc items checked =
  (Ok (forallb (byte_answer must_be_true mem1 mem2 mc)
         (filter (fun a => a ∉ checked) items.*1)),
   byte_query mem1 mem2 mc <$>
     until_first_failure (byte_answer must_be_true mem1 mem2 mc)
       (filter (fun a => a ∉ checked) items.*1)).
Proof.
  induction items as [|[a e] items IH]; intros Hrd; [done|].
  cbn [compare_symbols2 fmap list_fmap fst]. rewrite filter_cons.
  assert (IH' := IH (fun a' Ha' => Hrd a' (list_elem_of_further _ _ _ Ha'))).
  destruct (decide (a ∉ checked)) as [Hin|Hin].
  - rewrite bool_decide_eq_true_2 by done.
    rewrite compare_byte_vals_one by (apply Hrd; [apply list_elem_of_here | done]).
    unfold bind. cbn [forallb until_first_failure fmap list_fmap].
    destruct (byte_answer must_be_true mem1 mem2 mc a); cbn [negb andb]; [|done].
    by rewrite IH'.
  - rewrite bool_decide_eq_false_2 by done. exact IH'.
Qed.

End MemoryProperties.

Lemma compare_mem_symbols (must_be_true : ConstraintSet -> Expr -> bool)
    (mem1 mem2 : MemoryObj) (mc : ConstraintSet) :
  length (sorted (maps mem1)) = length (sorted (maps mem2)) ->
  compare_maps (zip (sorted (maps mem1)) (sorted (maps mem2))) = true ->
  compare_mem must_be_true mem1 mem2 mc =
  (r1 <- compare_symbols1 must_be_true mem1 mem2 mc (symbols_items mem1) [] ;;
   if negb r1.1 then ret false
   else compare_symbols2 must_be_true mem1 mem2 mc (symbols_items mem2) r1.2).
Proof.
  intros Hlen Hmaps. unfold compare_mem.
  apply Nat.eqb_eq in Hlen. rewrite Hlen, Hmaps. cbn [negb].
  assert (Hk : forall (m : Cmp (bool * list Z)) (k2 : list Z -> Cmp bool),
             (r1 <- m ;; let '(ok1, checked) := r1 in
                         if negb ok1 then ret false else k2 checked) =
             (r1 <- m ;; if negb r1.1 then ret false else k2 r1.2)).
  { intros [[[ok1 checked]| |] log] k2; done. }
  destruct mem1 as [ms1 rd1 | ms1 rd1 syms1], mem2 as [ms2 rd2 | ms2 rd2 syms2];
    cbn [class_name symbols_items];
    rewrite ?(bool_decide_eq_true_2 ("SMemory" = "SMemory")) by done;
    rewrite ?(bool_decide_eq_false_2 ("Memory" = "SMemory")) by done;
    try apply (Hk _ (fun checked => compare_symbols2 _ _ _ _ _ checked));
    apply (Hk _ (fun _ => ret true)).
Qed.


Lemma symbolic_addresses_union (mem1 mem2 : MemoryObj) (a : Z) :
  a ∈ symbolic_addresses mem1 mem2 <->
  a ∈ symbolic_keys mem1 \/ a ∈ symbolic_keys mem2.
Proof.
  unfold symbolic_addresses. rewrite elem_of_app, list_elem_of_filter.
  destruct (decide (a ∈ symbolic_keys mem1)); tauto.
Qed.



(** ** is_merge_possible *)

Section SyscallProperties.

Variable must_be_true : ConstraintSet -> Expr -> bool.
Variable mc : ConstraintSet.

(** On traces of equal length the positional comparison never indexes out
    of range, and succeeds exactly when the entries agree pairwise. *)
Lemma compare_syscalls_from (trace1 trace2 pre : list (string * Z * list Expr)) :
  length trace1 = length trace2 ->
  outcome (compare_syscalls must_be_true mc
             (zip (seq (length pre) (length trace1)) trace1) (pre ++ trace2)) =
  Ok (forallb (syscalls_agree must_be_true mc) (zip trace1 trace2)).
Proof.
  revert trace2 pre.
  induction trace1 as [|[[name1 fd1] data1] trace1 IH];
    intros [|[[name2 fd2] data2] trace2] pre Hlen; try done.
  cbn [length seq zip zip_with compare_syscalls forallb syscalls_agree].
  unfold getitem. rewrite lookup_app_r, Nat.sub_diag by lia.
  cbn [lookup list_lookup]. unfold lift. cbn [bind app].
  specialize (IH trace2 (pre ++ [(name2, fd2, data2)])).
  rewrite length_app, <- app_assoc in IH. cbn [length app] in IH.
  rewrite Nat.add_1_r in IH. specialize (IH ltac:(simpl in Hlen; lia)).
  destruct (bool_decide (name1 = name2)), (bool_decide (fd1 = fd2));
    cbn [andb]; try done.
  destruct (compare_buffers_Ok must_be_true mc data1 data2) as [b Hb].
  destruct (compare_buffers must_be_true mc data1 data2) as [o log].
  unfold outcome in Hb |- *. cbn [fst] in Hb |- *. subst o.
  unfold bind. destruct b; cbn [negb]; [|done].
  destruct (compare_syscalls _ _ _ _) as [o' log']. exact IH.
Qed.

Lemma compare_syscalls_positional (trace1 trace2 : list (string * Z * list Expr)) :
  length trace1 = length trace2 ->
  outcome (compare_syscalls must_be_true mc (enumerate trace1) trace2) =
  Ok (forallb (syscalls_agree must_be_true mc) (zip trace1 trace2)).
Proof. apply (compare_syscalls_from trace1 trace2 []). Qed.

End SyscallProperties.

Ltac verdict_case :=
  repeat split; intros; repeat destruct_and?; simplify_eq/=;
  rewrite ?app_nil_r, <- ?app_assoc; try done; try congruence.

(** C2. [is_merge_possible] checks the input socket, then the output
    socket, then the symbolic files, then the lengths of the syscall traces,
    then the entries of the traces position by position, then the memory.  At
    the first check that fails it returns [False] with the reason of that
    check, having asked the solver only what the checks up to there asked;
    it returns [(True, None)] exactly when every check passes. *)
Theorem is_merge_possible_correct (must_be_true : ConstraintSet -> Expr -> bool)
    (fuel : nat) (h : SocketStore) (state1 state2 : State) (mc : ConstraintSet) :
  let platform1 := state_platform state1 in
  let platform2 := state_platform state2 in
  let s_in := compare_sockets must_be_true fuel h mc (input platform1) (input platform2) in
  let s_out := compare_sockets must_be_true fuel h mc (output platform1) (output platform2) in
  let same_files := symbolic_files platform1 = symbolic_files platform2 in
  let same_length := length (syscall_trace platform1) = length (syscall_trace platform2) in
  let t := compare_syscalls must_be_true mc
             (enumerate (syscall_trace platform1)) (syscall_trace platform2) in
  let m := compare_mem must_be_true (state_mem state1) (state_mem state2) mc in
  let r := is_merge_possible must_be_true fuel h state1 state2 mc in
  (outcome s_in = Ok false ->
   r = (Ok (false, Some "inequivalent socket operations"), queries s_in)) /\
  (outcome s_in = Ok true -> outcome s_out = Ok false ->
   r = (Ok (false, Some "inequivalent socket operations"), queries s_in ++ queries s_out)) /\
  (outcome s_in = Ok true -> outcome s_out = Ok true ->
   (~ same_files ->
    r = (Ok (false, Some "inequivalent symbolic files"), queries s_in ++ queries s_out)) /\
   (same_files -> ~ same_length ->
    r = (Ok (false, Some "inequivalent syscall trace lengths"),
         queries s_in ++ queries s_out)) /\
   (same_files -> same_length ->
    outcome t =
      Ok (forallb (syscalls_agree must_be_true mc)
            (zip (syscall_trace platform1) (syscall_trace platform2))) /\
    (outcome t = Ok false ->
     r = (Ok (false, Some "inequivalent syscall traces"),
          queries s_in ++ queries s_out ++ queries t)) /\
    (outcome t = Ok true -> outcome m = Ok false ->
     r = (Ok (false, Some "inequivalent memory"),
          queries s_in ++ queries s_out ++ queries t ++ queries m)) /\
    (outcome t = Ok true -> outcome m = Ok true ->
     r = (Ok (true, None), queries s_in ++ queries s_out ++ queries t ++ queries m)))) /\
  (outcome r = Ok (true, None) <->
   outcome s_in = Ok true /\ outcome s_out = Ok true /\ same_files /\ same_length /\
   outcome t = Ok true /\ outcome m = Ok true).
Proof.
  cbv zeta. unfold is_merge_possible.
  set (s_in := compare_sockets must_be_true fuel h mc
                 (input (state_platform state1)) (input (state_platform state2))).
  set (s_out := compare_sockets must_be_true fuel h mc
                  (output (state_platform state1)) (output (state_platform state2))).
  set (t := compare_syscalls must_be_true mc _ _).
  set (m := compare_mem must_be_true _ _ mc).
  pose proof (compare_syscalls_positional must_be_true mc
                (syscall_trace (state_platform state1))
                (syscall_trace (state_platform state2))) as Ht.
  fold t in Ht. clearbody s_in s_out t m.
  unfold outcome, queries in *.
  destruct s_in as [[[|]| |] l1]; [|solve [verdict_case]..].
  destruct s_out as [[[|]| |] l2]; [|solve [verdict_case]..].
  case_bool_decide as Hfiles; [|solve [verdict_case]].
  destruct (Nat.eqb _ _) eqn:Hlen;
    [apply Nat.eqb_eq in Hlen | apply Nat.eqb_neq in Hlen; solve [verdict_case]].
  specialize (Ht Hlen).
  destruct t as [[[|]| |] l3]; [|solve [verdict_case]..].
  destruct m as [[[|]| |] l4]; solve [verdict_case].
Qed.

(** ** merge_cpu and merge *)

Lemma unchanged_except_refl dst written h : unchanged_except dst written h h.
Proof. by repeat split. Qed.

Lemma unchanged_except_trans dst w1 w2 h1 h2 h3 :
  unchanged_except dst w1 h1 h2 -> unchanged_except dst w2 h2 h3 ->
  unchanged_except dst (w1 ++ w2) h1 h3.
Proof.
  intros (Hs1 & Hc1 & Hn1 & Hz1 & Hr1) (Hs2 & Hc2 & Hn2 & Hz2 & Hr2).
  repeat split; try congruence.
  - intros c Hc. by rewrite Hc2, Hc1.
  - intros reg [Hw1 Hw2]%not_elem_of_app. by rewrite Hr2, Hr1.
Qed.

Lemma unchanged_except_read dst written h h' c reg :
  unchanged_except dst written h h' -> reg ∉ written ->
  read_register (cpus h' c) reg = read_register (cpus h c) reg.
Proof.
  intros (_ & Hc & _ & _ & Hr) Hreg.
  destruct (decide (c = dst)) as [-> | Hne]; [by apply Hr | by rewrite Hc].
Qed.

Lemma unchanged_except_sizeof dst written h h' c :
  unchanged_except dst written h h' ->
  regfile_sizeof (cpus h' c) = regfile_sizeof (cpus h c).
Proof.
  intros (_ & Hc & _ & Hz & _).
  destruct (decide (c = dst)) as [-> | Hne]; [done | by rewrite Hc].
Qed.

Lemma write_state_register_effect state reg v h :
  let dst := state_cpu (states h state) in
  unchanged_except dst [reg] h (write_state_register state reg v h) /\
  read_register (cpus (write_state_register state reg v h) dst) reg = v.
Proof.
  cbv zeta. unfold write_state_register, unchanged_except, read_register.
  cbn [cpus states]. rewrite fn_lookup_insert. cbn [write_register registers].
  rewrite fn_lookup_insert. repeat split; try done.
  - intros c Hc. by rewrite fn_lookup_insert_ne.
  - intros r Hr. rewrite fn_lookup_insert_ne; [done|].
    intros ->. apply Hr, list_elem_of_here.
Qed.

Section CpuProperties.

Variables cpu1 cpu2 state : nat.
Variable exp1 : Expr.

(** One register, when the sizes of its two values do not clash. *)
Lemma merge_register_Ok reg h :
  let val1 := read_register (cpus h cpu1) reg in
  let val2 := read_register (cpus h cpu2) reg in
  let dst := state_cpu (states h state) in
  size_mismatch val1 val2 = false ->
  exists h',
    merge_register cpu1 cpu2 state exp1 reg h = (Ok tt, h') /\
    unchanged_except dst [reg] h h' /\
    read_register (cpus h' dst) reg =
      if merge_required val1 val2
      then merged_value (regfile_sizeof (cpus h cpu1) reg) exp1 val1 val2
      else read_register (cpus h dst) reg.
Proof.
  cbv zeta. intros Hsize. unfold merge_register. rewrite Hsize.
  destruct (merge_required _ _).
  - eexists. split; [done|]. apply write_state_register_effect.
  - exists h. split; [done|]. split; [apply unchanged_except_refl | done].
Qed.

Lemma merge_register_Raise reg h :
  size_mismatch (read_register (cpus h cpu1) reg) (read_register (cpus h cpu2) reg) = true ->
  merge_register cpu1 cpu2 state exp1 reg h = (Raise AssertionError, h).
Proof. intros Hsize. unfold merge_register. by rewrite Hsize. Qed.

(** Whatever the outcome, the loop writes only registers of its list, in
    the CPU of the destination state. *)
Lemma merge_registers_frame regs h :
  unchanged_except (state_cpu (states h state)) regs h
    (merge_registers cpu1 cpu2 state exp1 regs h).2.
Proof.
  revert h. induction regs as [|reg regs IH]; intros h.
  - apply unchanged_except_refl.
  - cbn [merge_registers].
    destruct (size_mismatch (read_register (cpus h cpu1) reg)
                (read_register (cpus h cpu2) reg)) eqn:Hsize.
    + rewrite merge_register_Raise by done. apply unchanged_except_refl.
    + destruct (merge_register_Ok reg h Hsize) as (h1 & -> & Hframe & _).
      specialize (IH h1).
      replace (state_cpu (states h1 state)) with (state_cpu (states h state)) in IH
        by (destruct Hframe as [-> _]; done).
      apply (unchanged_except_trans _ [reg] regs _ _ _ Hframe IH).
Qed.

(** The loop over distinct registers none of which has clashing sizes. *)
Lemma merge_registers_Ok regs h :
  NoDup regs ->
  (forall reg, reg ∈ regs ->
     size_mismatch (read_register (cpus h cpu1) reg)
       (read_register (cpus h cpu2) reg) = false) ->
  exists h',
    merge_registers cpu1 cpu2 state exp1 regs h = (Ok tt, h') /\
    forall reg, reg ∈ regs ->
      read_register (cpus h' (state_cpu (states h state))) reg =
        if merge_required (read_register (cpus h cpu1) reg)
             (read_register (cpus h cpu2) reg)
        then merged_value (regfile_sizeof (cpus h cpu1) reg) exp1
               (read_register (cpus h cpu1) reg) (read_register (cpus h cpu2) reg)
        else read_register (cpus h (state_cpu (states h state))) reg.
Proof.
  revert h. induction regs as [|reg regs IH]; intros h Hnd Hsize.
  - exists h. split; [done|]. by intros reg Hreg%elem_of_nil.
  - apply NoDup_cons in Hnd as [Hnotin Hnd].
    destruct (merge_register_Ok reg h (Hsize reg (list_elem_of_here _ _)))
      as (h1 & Hstep & Hframe & Hval).
    assert (Hdst : state_cpu (states h1 state) = state_cpu (states h state))
      by (destruct Hframe as [-> _]; done).
    assert (Hrd : forall c r, r ∈ regs ->
              read_register (cpus h1 c) r = read_register (cpus h c) r).
    { intros c r Hr. apply (unchanged_except_read _ _ _ _ _ _ Hframe).
      intros ->%list_elem_of_singleton. done. }
    destruct (IH h1 Hnd) as (h' & Hloop & Hvals).
    { intros r Hr. rewrite !Hrd by done. by apply Hsize, list_elem_of_further. }
    exists h'. split; [cbn [merge_registers]; by rewrite Hstep|].
    intros r [-> | Hr]%elem_of_cons.
    + pose proof (merge_registers_frame regs h1) as Hframe'.
      rewrite Hloop, Hdst in Hframe'. cbn [snd] in Hframe'.
      destruct Hframe' as (_ & _ & _ & _ & Hkeep). by rewrite Hkeep.
    + rewrite <- Hdst, Hvals by done. rewrite !Hrd by done.
      by rewrite (unchanged_except_sizeof _ _ _ _ cpu1 Hframe), Hdst.
Qed.

End CpuProperties.

Lemma merge_required_false (val1 val2 : Expr) :
  merge_required val1 val2 = false <->
  exists x, concrete_value val1 = Some x /\ concrete_value val2 = Some x.
Proof.
  unfold merge_required, issymbolic.
  destruct (concrete_value val1) as [x|], (concrete_value val2) as [y|]; simpl.
  - rewrite negb_false_iff, Z.eqb_eq.
    split; [intros ->; eauto | by intros (? & [= ->] & [= ->])].
  - split; [done | by intros (? & _ & ?)].
  - split; [done | by intros (? & ? & _)].
  - split; [done | by intros (? & ? & _)].
Qed.

Lemma merge_required_true (val1 val2 : Expr) :
  merge_required val1 val2 = true <->
  issymbolic val1 = true \/ issymbolic val2 = true \/
  exists x y, concrete_value val1 = Some x /\ concrete_value val2 = Some y /\ x <> y.
Proof.
  unfold merge_required, issymbolic.
  destruct (concrete_value val1) as [x|], (concrete_value val2) as [y|]; simpl;
    try (split; [auto | done]).
  rewrite negb_true_iff, Z.eqb_neq. split.
  - intros Hne. right. right. by exists x, y.
  - intros [? | [? | (? & ? & [= <-] & [= <-] & ?)]]; done.
Qed.

(** C6. Over canonical registers that are distinct and whose two values do
    not clash in size, [merge_cpu] returns normally and, for every canonical
    register: when the two values are concrete and equal, the register of
    the destination keeps its value; when one of them is symbolic or the two
    concrete values differ, the register of the destination holds the
    select of the two values under [exp1], [ITE] when the declared width of
    the register is 1, [ITEBV] tagged with that width otherwise. *)
Theorem merge_cpu_correct (cpu1 cpu2 state : nat) (exp1 : Expr) (h : Heap) :
  let regs := canonical_registers (cpus h cpu1) in
  let dst := state_cpu (states h state) in
  NoDup regs ->
  (forall reg, reg ∈ regs ->
     size_mismatch (read_register (cpus h cpu1) reg)
       (read_register (cpus h cpu2) reg) = false) ->
  exists h',
    merge_cpu cpu1 cpu2 state exp1 h = (Ok tt, h') /\
    forall reg, reg ∈ regs ->
      let val1 := read_register (cpus h cpu1) reg in
      let val2 := read_register (cpus h cpu2) reg in
      let size := regfile_sizeof (cpus h cpu1) reg in
      ((exists x, concrete_value val1 = Some x /\ concrete_value val2 = Some x) ->
       read_register (cpus h' dst) reg = read_register (cpus h dst) reg) /\
      (issymbolic val1 = true \/ issymbolic val2 = true \/
       (exists x y, concrete_value val1 = Some x /\ concrete_value val2 = Some y /\ x <> y) ->
       (size = 1 -> read_register (cpus h' dst) reg = ITE exp1 val1 val2) /\
       (size <> 1 -> read_register (cpus h' dst) reg = ITEBV size exp1 val1 val2)).
Proof.
  cbv zeta. intros Hnd Hsize. unfold merge_cpu.
  destruct (merge_registers_Ok cpu1 cpu2 state exp1 _ h Hnd Hsize) as (h' & Hrun & Hvals).
  exists h'. split; [done|]. intros reg Hreg. rewrite (Hvals reg Hreg). split.
  - intros Hsame%merge_required_false. by rewrite Hsame.
  - intros Hdiff%merge_required_true. rewrite Hdiff. unfold merged_value. split.
    + by intros ->.
    + intros Hne%Z.eqb_neq. by rewrite Hne.
Qed.

Lemma merge_cpu_correct_witness :
  exists h',
    merge_cpu 0 1 2 (BoolVariable "p") sample_heap = (Ok tt, h') /\
    read_register (cpus h' 2%nat) "R0" = ITEBV 64 (BoolVariable "p") (PyInt 5) (PyInt 7) /\
    read_register (cpus h' 2%nat) "R1" = PyInt 0 /\
    read_register (cpus h' 2%nat) "ZF" = ITE (BoolVariable "p") (PyBool true) (PyBool false).
Proof.
  destruct (merge_cpu_correct 0 1 2 (BoolVariable "p") sample_heap) as (h' & Hrun & Hregs).
  - apply (bool_decide_unpack _). vm_compute. exact I.
  - intros reg Hreg. apply (bool_decide_unpack _).
    cbn in Hreg. rewrite !elem_of_cons, elem_of_nil in Hreg.
    destruct Hreg as [-> | [-> | [-> | []]]]; vm_compute; exact I.
  - exists h'. split; [exact Hrun|]. split; [|split].
    + destruct (Hregs "R0") as [_ H]; [cbn; rewrite !elem_of_cons; tauto|].
      destruct H as [_ H].
      * right. right. exists 5, 7. by repeat split.
      * apply H. vm_compute. discriminate.
    + destruct (Hregs "R1") as [H _]; [cbn; rewrite !elem_of_cons; tauto|].
      apply H. by exists 9.
    + destruct (Hregs "ZF") as [_ H]; [cbn; rewrite !elem_of_cons; tauto|].
      destruct H as [H _].
      * right. right. exists 1, 0. by repeat split.
      * apply H. reflexivity.
Defined.

Lemma first_failure_split {A} (p : A -> bool) (l : list A) :
  (exists x, x ∈ l /\ p x = true) ->
  exists pre x post,
    l = pre ++ x :: post /\ (forall y, y ∈ pre -> p y = false) /\ p x = true.
Proof.
  induction l as [|a l IH]; intros (x & Hx & Hpx); [by apply elem_of_nil in Hx|].
  destruct (p a) eqn:Hpa.
  - exists [], a, l. split; [done|]. split; [|done]. by intros y Hy%elem_of_nil.
  - apply elem_of_cons in Hx as [-> | Hx]; [congruence|].
    destruct IH as (pre & z & post & -> & Hpre & Hz); [eauto|].
    exists (a :: pre), z, post. split; [done|]. split; [|done].
    intros y [-> | Hy]%elem_of_cons; [done | by apply Hpre].
Qed.

Lemma merge_registers_app cpu1 cpu2 state exp1 (regs1 regs2 : list string) h :
  merge_registers cpu1 cpu2 state exp1 (regs1 ++ regs2) h =
  match merge_registers cpu1 cpu2 state exp1 regs1 h with
  | (Ok _, h1) => merge_registers cpu1 cpu2 state exp1 regs2 h1
  | (Raise e, h1) => (Raise e, h1)
  | (OutOfFuel, h1) => (OutOfFuel, h1)
  end.
Proof.
  revert h. induction regs1 as [|reg regs1 IH]; intros h; [done|].
  cbn [app merge_registers].
  destruct (merge_register cpu1 cpu2 state exp1 reg h) as [[[]| |] h1]; [apply IH|done..].
Qed.

(** C7, as stated, fails: [R1] has a 32-bit value in one CPU and a 64-bit
    value in the other, and [merge_cpu] raises [AssertionError] only after
    it has written the merged value of [R0] into the destination. *)
Lemma merge_cpu_aborts_after_a_write :
  size_mismatch (read_register (cpus clashing_heap 0%nat) "R1")
    (read_register (cpus clashing_heap 1%nat) "R1") = true /\
  (merge_cpu 0 1 2 (BoolVariable "p") clashing_heap).1 = Raise AssertionError /\
  read_register (cpus clashing_heap 2%nat) "R0" = PyInt 0 /\
  read_register (cpus (merge_cpu 0 1 2 (BoolVariable "p") clashing_heap).2 2%nat) "R0" =
    ITEBV 64 (BoolVariable "p") (PyInt 5) (PyInt 7).
Proof. vm_compute. by repeat split. Qed.

(** C7, amended. When some canonical register has two bit-vector values of
    different sizes, [merge_cpu] raises [AssertionError] at the first such
    register in canonical order: the clash is neither turned into a select
    nor reported as a result.  Nothing is written for that register or for
    a later one; the registers before it have been merged into the
    destination by then, and the heap left is the one their merge gives. *)
Theorem merge_cpu_size_mismatch (cpu1 cpu2 state : nat) (exp1 : Expr) (h : Heap) :
  let regs := canonical_registers (cpus h cpu1) in
  let dst := state_cpu (states h state) in
  let clash := fun reg =>
    size_mismatch (read_register (cpus h cpu1) reg) (read_register (cpus h cpu2) reg) in
  NoDup regs ->
  (exists reg, reg ∈ regs /\ clash reg = true) ->
  exists pre reg post h',
    regs = pre ++ reg :: post /\
    (forall r, r ∈ pre -> clash r = false) /\ clash reg = true /\
    merge_registers cpu1 cpu2 state exp1 pre h = (Ok tt, h') /\
    merge_cpu cpu1 cpu2 state exp1 h = (Raise AssertionError, h') /\
    unchanged_except dst pre h h' /\
    (forall c r, r ∈ reg :: post ->
       read_register (cpus h' c) r = read_register (cpus h c) r).
Proof.
  cbv zeta. intros Hnd Hclash.
  destruct (first_failure_split _ _ Hclash) as (pre & reg & post & Hregs & Hpre & Hreg).
  rewrite Hregs in Hnd. apply NoDup_app in Hnd as (Hnd_pre & Hdisj & Hnd_post).
  destruct (merge_registers_Ok cpu1 cpu2 state exp1 pre h Hnd_pre Hpre) as (h' & Hrun & _).
  pose proof (merge_registers_frame cpu1 cpu2 state exp1 pre h) as Hframe.
  rewrite Hrun in Hframe. cbn [snd] in Hframe.
  assert (Hkeep : forall c r, r ∈ reg :: post ->
            read_register (cpus h' c) r = read_register (cpus h c) r).
  { intros c r Hr. apply (unchanged_except_read _ _ _ _ _ _ Hframe).
    intros Hin. by apply (Hdisj r). }
  exists pre, reg, post, h'.
  refine (conj Hregs (conj Hpre (conj Hreg (conj Hrun (conj _ (conj Hframe Hkeep)))))).
  unfold merge_cpu. rewrite Hregs, merge_registers_app, Hrun.
  cbn [merge_registers]. rewrite merge_register_Raise; [done|].
  by rewrite !Hkeep by apply list_elem_of_here.
Qed.

Lemma merge_cpu_size_mismatch_witness :
  exists h',
    merge_cpu 0 1 2 (BoolVariable "p") clashing_heap = (Raise AssertionError, h') /\
    read_register (cpus h' 2%nat) "R1" = PyInt 0.
Proof.
  destruct (merge_cpu_size_mismatch 0 1 2 (BoolVariable "p") clashing_heap)
    as (pre & reg & post & h' & Hregs & Hpre & Hreg & _ & Hrun & _ & Hkeep).
  - apply (bool_decide_unpack _). vm_compute. exact I.
  - exists "R1". split; [|reflexivity]. cbn. rewrite !elem_of_cons. tauto.
  - exists h'. split; [exact Hrun|].
    replace h' with (merge_cpu 0 1 2 (BoolVariable "p") clashing_heap).2
      by (by rewrite Hrun).
    vm_compute. reflexivity.
Defined.

(** C8, as stated, fails: in [merge] the destination is [state1], whose
    CPU is the first operand, and that CPU receives the merged values. *)
Lemma merge_writes_first_operand :
  read_register (cpus sample_heap (state_cpu (states sample_heap 0%nat))) "R0" = PyInt 5 /\
  read_register
    (cpus (merge 0 1 (BoolVariable "p") (mkConstraintSet [BoolVariable "q"]) sample_heap).2
       (state_cpu (states sample_heap 0%nat))) "R0" =
    ITEBV 64 (BoolVariable "p") (PyInt 5) (PyInt 7).
Proof. vm_compute. by split. Qed.

(** C8, amended. [merge_cpu] writes only into the CPU of the destination
    state: every other CPU object is left as it was, whatever the outcome,
    and so are the states.  The same holds in [merge], where the destination
    is [state1]: the CPU of [state2] is unchanged when it is another object
    than the CPU of [state1], which is the one written. *)
Theorem merge_cpu_frame (cpu1 cpu2 state state2 c : nat) (exp1 : Expr)
    (merged_constraint : ConstraintSet) (h : Heap) :
  c <> state_cpu (states h state) ->
  cpus (merge_cpu cpu1 cpu2 state exp1 h).2 c = cpus h c /\
  states (merge_cpu cpu1 cpu2 state exp1 h).2 = states h /\
  cpus (merge state state2 exp1 merged_constraint h).2 c = cpus h c.
Proof.
  intros Hc.
  assert (Hframe : forall c1 c2,
            cpus (merge_cpu c1 c2 state exp1 h).2 c = cpus h c /\
            states (merge_cpu c1 c2 state exp1 h).2 = states h).
  { intros c1 c2. unfold merge_cpu.
    destruct (merge_registers_frame c1 c2 state exp1
                (canonical_registers (cpus h c1)) h) as (Hs & Hcpus & _).
    split; [by apply Hcpus | done]. }
  split; [apply Hframe|]. split; [apply Hframe|].
  unfold merge.
  destruct (Hframe (state_cpu (states h state)) (state_cpu (states h state2))) as [Hcpu _].
  by destruct (merge_cpu _ _ state exp1 h) as [[[]| |] h'].
Qed.

Lemma merge_cpu_frame_witness :
  cpus (merge 0 1 (BoolVariable "p") (mkConstraintSet [BoolVariable "q"])
          sample_heap).2 1%nat =
  cpus sample_heap 1%nat.
Proof.
  apply (merge_cpu_frame 0 1 0 1 1 (BoolVariable "p")
           (mkConstraintSet [BoolVariable "q"]) sample_heap).
  vm_compute. discriminate.
Defined.

(** * Further properties *)

(** ** compare_byte_vals *)


(** ** compare_sockets *)

Section SocketVerdicts.

Variable must_be_true : ConstraintSet -> Expr -> bool.
Variable h : SocketStore.
Variable cs : ConstraintSet.

Lemma compare_sockets_verdict fuel socket1 socket2 verdict :
  outcome (compare_sockets must_be_true fuel h cs socket1 socket2) = Ok verdict <->
  exists n, (n < fuel)%nat /\
    equal_upto must_be_true h cs n socket1 socket2 /\
    verdict_at must_be_true h cs n socket1 socket2 verdict.
Proof.
  revert socket1 socket2.
  induction fuel as [|fuel IH]; intros socket1 socket2.
  { split; [done | intros (n & Hn & _); lia]. }
  destruct socket1 as [a|], socket2 as [b|].
  - rewrite compare_sockets_step.
    destruct (compare_buffers_Ok must_be_true cs (buffer (h a)) (buffer (h b)))
      as [[|] Hbuf]; rewrite Hbuf.
    + rewrite IH. split.
      * intros (n & Hn & Heq & Hv). exists (S n). split; [lia|]. split; [|exact Hv].
        intros [|k] Hk; [by exists a, b | apply Heq; lia].
      * intros ([|n] & Hn & Heq & Hv).
        -- unfold verdict_at in Hv. simpl in Hv. destruct Hv as [_ Hv]. congruence.
        -- exists n. split; [lia|]. split; [|exact Hv].
           intros k Hk. apply (Heq (S k)). lia.
    + split.
      * intros [= <-]. exists 0%nat. split; [lia|]. split; [intros k Hk; lia|].
        unfold verdict_at. simpl. done.
      * intros ([|n] & Hn & Heq & Hv).
        -- unfold verdict_at in Hv. simpl in Hv. destruct Hv as [-> _]. done.
        -- destruct (Heq 0%nat) as (a' & b' & [= <-] & [= <-] & Hok); [lia|]. congruence.
  - split.
    + intros [= <-]. exists 0%nat. split; [lia|]. split; [intros k Hk; lia | done].
    + intros ([|n] & Hn & Heq & Hv); [by rewrite Hv|].
      destruct (Heq 0%nat) as (a' & b' & _ & [=] & _). lia.
  - split.
    + intros [= <-]. exists 0%nat. split; [lia|]. split; [intros k Hk; lia | done].
    + intros ([|n] & Hn & Heq & Hv); [by rewrite Hv|].
      destruct (Heq 0%nat) as (a' & b' & [=] & _). lia.
  - split.
    + intros [= <-]. exists 0%nat. split; [lia|]. split; [intros k Hk; lia | done].
    + intros ([|n] & Hn & Heq & Hv); [by rewrite Hv|].
      destruct (Heq 0%nat) as (a' & b' & [=] & _). lia.
Qed.

End SocketVerdicts.

(** X2. [compare_sockets] returns [True] exactly when the two peer chains
    end at the same depth and, at every depth before, the buffers of the
    two sockets compare equal; it returns [False] exactly when, the buffers
    comparing equal before, a depth is reached where one chain has ended and
    the other has not, or where the two buffers compare unequal. *)
Theorem compare_sockets_verdicts (must_be_true : ConstraintSet -> Expr -> bool)
    (h : SocketStore) (cs : ConstraintSet) (socket1 socket2 : option nat) :
  ((exists fuel,
      outcome (compare_sockets must_be_true fuel h cs socket1 socket2) = Ok true) <->
   (exists n, equal_upto must_be_true h cs n socket1 socket2 /\
      peer_at h n socket1 = None /\ peer_at h n socket2 = None)) /\
  ((exists fuel,
      outcome (compare_sockets must_be_true fuel h cs socket1 socket2) = Ok false) <->
   (exists n, equal_upto must_be_true h cs n socket1 socket2 /\
      match peer_at h n socket1, peer_at h n socket2 with
      | None, None => False
      | Some a, Some b =>
          outcome (compare_buffers must_be_true cs (buffer (h a)) (buffer (h b))) = Ok false
      | _, _ => True
      end)).
Proof.
  split; split.
  - intros [fuel (n & _ & Heq & Hv)%compare_sockets_verdict]. exists n. split; [done|].
    unfold verdict_at in Hv.
    destruct (peer_at h n socket1), (peer_at h n socket2); try done. by destruct Hv.
  - intros (n & Heq & H1 & H2). exists (S n). apply compare_sockets_verdict.
    exists n. split; [lia|]. split; [done|]. unfold verdict_at. by rewrite H1, H2.
  - intros [fuel (n & _ & Heq & Hv)%compare_sockets_verdict]. exists n. split; [done|].
    unfold verdict_at in Hv.
    destruct (peer_at h n socket1), (peer_at h n socket2); try done. by destruct Hv.
  - intros (n & Heq & Hv). exists (S n). apply compare_sockets_verdict.
    exists n. split; [lia|]. split; [done|]. unfold verdict_at.
    destruct (peer_at h n socket1), (peer_at h n socket2); done.
Qed.

Section Symmetry.

Variable must_be_true : ConstraintSet -> Expr -> bool.
Variable cs : ConstraintSet.
Hypothesis solver_symmetric :
  forall a b, must_be_true cs (py_eq a b) = must_be_true cs (py_eq b a).

Lemma compare_buffers_symmetric buffer1 buffer2 :
  outcome (compare_buffers must_be_true cs buffer1 buffer2) =
  outcome (compare_buffers must_be_true cs buffer2 buffer1).
Proof.
  unfold compare_buffers. rewrite (Nat.eqb_sym (length buffer2)).
  destruct (negb _); [done|]. rewrite !compare_zipped_eq. unfold outcome. cbn [fst].
  f_equal. revert buffer2.
  induction buffer1 as [|x buffer1 IH]; intros [|y buffer2]; try done.
  cbn [zip zip_with forallb]. rewrite (IH buffer2). f_equal.
  unfold answer, buffer_query. cbn [fst snd]. apply solver_symmetric.
Qed.

Lemma compare_sockets_symmetric h fuel socket1 socket2 :
  outcome (compare_sockets must_be_true fuel h cs socket1 socket2) =
  outcome (compare_sockets must_be_true fuel h cs socket2 socket1).
Proof.
  revert socket1 socket2. induction fuel as [|fuel IH]; intros socket1 socket2; [done|].
  destruct socket1 as [a|], socket2 as [b|]; try done.
  rewrite !compare_sockets_step, (compare_buffers_symmetric (buffer (h a))).
  destruct (outcome (compare_buffers _ _ _ _)) as [[|]| |]; done.
Qed.

End Symmetry.

(** X3. When the answer of the solver on [a == b] does not depend on the
    order of the two sides, [compare_buffers] and [compare_sockets] give the
    same result on their two arguments in either order. *)
Theorem comparisons_symmetric (must_be_true : ConstraintSet -> Expr -> bool)
    (h : SocketStore) (cs : ConstraintSet) :
  (forall a b, must_be_true cs (py_eq a b) = must_be_true cs (py_eq b a)) ->
  (forall buffer1 buffer2,
     outcome (compare_buffers must_be_true cs buffer1 buffer2) =
     outcome (compare_buffers must_be_true cs buffer2 buffer1)) /\
  (forall fuel socket1 socket2,
     outcome (compare_sockets must_be_true fuel h cs socket1 socket2) =
     outcome (compare_sockets must_be_true fuel h cs socket2 socket1)).
Proof.
  intros Hsym. split.
  - by apply compare_buffers_symmetric.
  - intros fuel socket1 socket2. by apply compare_sockets_symmetric.
Qed.

Lemma syntactic_solver_symmetric cs a b :
  syntactic_solver cs (py_eq a b) = syntactic_solver cs (py_eq b a).
Proof.
  unfold py_eq.
  destruct (concrete_value a) as [x|], (concrete_value b) as [y|]; simpl;
    try (apply bool_decide_ext; split; congruence).
  apply Z.eqb_sym.
Defined.

Lemma comparisons_symmetric_witness :
  outcome (compare_sockets syntactic_solver 3 chained_sockets (mkConstraintSet [])
             (Some 0%nat) (Some 1%nat)) =
  outcome (compare_sockets syntactic_solver 3 chained_sockets (mkConstraintSet [])
             (Some 1%nat) (Some 0%nat)).
Proof.
  apply (comparisons_symmetric syntactic_solver chained_sockets (mkConstraintSet [])).
  apply syntactic_solver_symmetric.
Defined.

(** ** compare_mem *)

(** X4. On two memories of class [Memory], [compare_mem] never asks the
    solver: it returns [True] exactly when the two memories have the same
    number of maps and, once sorted, their maps agree position by position
    in name, permissions, start, end and concrete bytes. *)
Theorem compare_mem_concrete (must_be_true : ConstraintSet -> Expr -> bool)
    (mem1 mem2 : MemoryObj) (mc : ConstraintSet) :
  class_name mem1 = "Memory" -> class_name mem2 = "Memory" ->
  queries (compare_mem must_be_true mem1 mem2 mc) = [] /\
  exists b,
    outcome (compare_mem must_be_true mem1 mem2 mc) = Ok b /\
    (b = true <->
     length (maps mem1) = length (maps mem2) /\
     forall i m1 m2, sorted (maps mem1) !! i = Some m1 ->
                     sorted (maps mem2) !! i = Some m2 -> maps_agree m1 m2).
Proof.
  destruct mem1 as [ms1 rd1 | ms1 rd1 syms1], mem2 as [ms2 rd2 | ms2 rd2 syms2];
    try done.
  intros _ _. unfold compare_mem. cbn [maps class_name].
  rewrite (bool_decide_eq_false_2 ("Memory" = "SMemory")) by done.
  rewrite !sorted_length.
  destruct (Nat.eqb (length ms1) (length ms2)) eqn:Hlen; cbn [negb].
  - apply Nat.eqb_eq in Hlen.
    destruct (compare_maps _) eqn:Hmaps; cbn [negb].
    + split; [done|]. exists true. split; [done|]. split; [|done].
      intros _. split; [done|]. by apply compare_maps_true.
    + split; [done|]. exists false. split; [done|]. split; [done|].
      intros [_ Hagree%compare_maps_true]. congruence.
  - apply Nat.eqb_neq in Hlen. split; [done|]. exists false.
    split; [done|]. split; [done|]. by intros [? _].
Qed.

Lemma compare_mem_concrete_witness :
  compare_mem syntactic_solver concrete_mem1 concrete_mem2 (mkConstraintSet []) =
  (Ok true, []).
Proof.
  destruct (compare_mem_concrete syntactic_solver concrete_mem1 concrete_mem2
              (mkConstraintSet []) eq_refl eq_refl) as (Hq & b & Hb & Hiff).
  destruct (compare_mem _ _ _ _) as [o log].
  unfold outcome, queries in Hb, Hq. cbn [fst snd] in Hb, Hq. subst o log.
  do 2 f_equal. apply Hiff. split; [reflexivity|].
  intros [|i] m1 m2; simpl; [|by rewrite lookup_nil].
  intros [= <-] [= <-]. by repeat split.
Defined.

(** ** is_merge_possible *)

Lemma is_merge_possible_outcome (must_be_true : ConstraintSet -> Expr -> bool)
    (fuel : nat) (h : SocketStore) (state1 state2 : State) (mc : ConstraintSet) :
  let platform1 := state_platform state1 in
  let platform2 := state_platform state2 in
  outcome (is_merge_possible must_be_true fuel h state1 state2 mc) =
  verdict_of
    (outcome (compare_sockets must_be_true fuel h mc (input platform1) (input platform2)))
    (outcome (compare_sockets must_be_true fuel h mc (output platform1) (output platform2)))
    (bool_decide (symbolic_files platform1 = symbolic_files platform2))
    (Nat.eqb (length (syscall_trace platform1)) (length (syscall_trace platform2)))
    (outcome (compare_syscalls must_be_true mc
                (enumerate (syscall_trace platform1)) (syscall_trace platform2)))
    (outcome (compare_mem must_be_true (state_mem state1) (state_mem state2) mc)).
Proof.
  cbv zeta. unfold is_merge_possible, verdict_of, outcome.
  destruct (compare_sockets must_be_true fuel h mc (input _) (input _))
    as [[[|]| |] l1]; try done;
    destruct (compare_sockets must_be_true fuel h mc (output _) (output _))
      as [[[|]| |] l2]; try done.
  cbn. destruct (bool_decide _); cbn; [|done].
  destruct (Nat.eqb _ _); cbn; [|done].
  destruct (compare_syscalls _ _ _ _) as [[[|]| |] l3]; try done.
  cbn. by destruct (compare_mem _ _ _ _) as [[[|]| |] l4].
Qed.

Section NoIndexError.

Variable must_be_true : ConstraintSet -> Expr -> bool.






End NoIndexError.



(** X6. Whenever [is_merge_possible] returns, the reason is [None] exactly
    when the verdict is [True]; with the verdict [False] comes one of its
    five reasons. *)
Theorem is_merge_possible_reason (must_be_true : ConstraintSet -> Expr -> bool)
    (fuel : nat) (h : SocketStore) (state1 state2 : State) (mc : ConstraintSet)
    (verdict : bool) (reason : option string) :
  outcome (is_merge_possible must_be_true fuel h state1 state2 mc) =
    Ok (verdict, reason) ->
  (verdict = true /\ reason = None) \/
  (verdict = false /\ exists r, reason = Some r /\ r ∈ merge_reasons).
Proof.
  rewrite is_merge_possible_outcome. unfold verdict_of, merge_reasons.
  assert (Hno : forall r, r ∈ merge_reasons ->
            Ok (false, Some r) = Ok (verdict, reason) ->
            (verdict = true /\ reason = None) \/
            (verdict = false /\ exists r', reason = Some r' /\ r' ∈ merge_reasons)).
  { intros r Hr [= <- <-]. right. eauto. }
  unfold merge_reasons in Hno.
  destruct (outcome (compare_sockets _ _ _ _ (input _) _)) as [[|]| |]; try done;
    [|apply Hno; rewrite !elem_of_cons; tauto].
  destruct (outcome (compare_sockets _ _ _ _ (output _) _)) as [[|]| |]; try done;
    [|apply Hno; rewrite !elem_of_cons; tauto].
  destruct (bool_decide _); cbn [negb];
    [|apply Hno; rewrite !elem_of_cons; tauto].
  destruct (Nat.eqb _ _); cbn [negb];
    [|apply Hno; rewrite !elem_of_cons; tauto].
  destruct (outcome (compare_syscalls _ _ _ _)) as [[|]| |]; try done;
    [|apply Hno; rewrite !elem_of_cons; tauto].
  destruct (outcome (compare_mem _ _ _ _)) as [[|]| |]; try done;
    [|apply Hno; rewrite !elem_of_cons; tauto].
  intros [= <- <-]. by left.
Qed.

Lemma is_merge_possible_reason_witness :
  (false = true /\ Some "inequivalent memory" = None) \/
  (false = false /\ exists r, Some "inequivalent memory" = Some r /\ r ∈ merge_reasons).
Proof.
  apply (is_merge_possible_reason syntactic_solver 1 self_peered
           (mkState 0 concrete_mem1 sample_platform (mkConstraintSet []))
           (mkState 1 (Memory [] sample_read) sample_platform (mkConstraintSet []))
           (mkConstraintSet [])).
  vm_compute. reflexivity.
Defined.

Lemma compare_mem_outcome (must_be_true : ConstraintSet -> Expr -> bool)
    (mem1 mem2 : MemoryObj) (mc : ConstraintSet) :
  (forall a, a ∈ symbolic_addresses mem1 mem2 -> reads_one_byte mem1 mem2 a) ->
  outcome (compare_mem must_be_true mem1 mem2 mc) =
  Ok (Nat.eqb (length (maps mem1)) (length (maps mem2)) &&
      compare_maps (zip (sorted (maps mem1)) (sorted (maps mem2))) &&
      forallb (byte_answer must_be_true mem1 mem2 mc) (symbolic_addresses mem1 mem2)).
Proof.
  intros Hrd.
  destruct (Nat.eqb (length (maps mem1)) (length (maps mem2))) eqn:Hlen;
    [|unfold compare_mem; by rewrite !sorted_length, Hlen].
  destruct (compare_maps _) eqn:Hmaps;
    [|unfold compare_mem; by rewrite !sorted_length, Hlen, Hmaps].
  rewrite compare_mem_symbols;
    [|rewrite !sorted_length; by apply Nat.eqb_eq|done].
  rewrite compare_symbols1_eq
    by (intros a Ha; apply Hrd, symbolic_addresses_union; by left).
  fold (symbolic_keys mem1). unfold symbolic_addresses.
  rewrite forallb_app. unfold bind, outcome. cbn [fst snd app andb].
  destruct (forallb _ (symbolic_keys mem1)) eqn:Hall1; cbn [negb andb]; [|done].
  rewrite until_first_failure_all by done.
  rewrite compare_symbols2_eq; [done|].
  intros a Ha Hnot. apply Hrd, symbolic_addresses_union. by right.
Qed.

(** X7. [is_merge_possible] returns a verdict, within one call more than
    the depth [n], as soon as, for the input sockets and for the output
    sockets, one of the two peer chains has ended at depth [n], and each
    memory reads one value at every address that carries a symbolic byte. *)
Theorem is_merge_possible_returns (must_be_true : ConstraintSet -> Expr -> bool)
    (n : nat) (h : SocketStore) (state1 state2 : State) (mc : ConstraintSet) :
  let platform1 := state_platform state1 in
  let platform2 := state_platform state2 in
  peer_at h n (input platform1) = None \/ peer_at h n (input platform2) = None ->
  peer_at h n (output platform1) = None \/ peer_at h n (output platform2) = None ->
  (forall a, a ∈ symbolic_addresses (state_mem state1) (state_mem state2) ->
     reads_one_byte (state_mem state1) (state_mem state2) a) ->
  exists verdict reason,
    outcome (is_merge_possible must_be_true (S n) h state1 state2 mc) =
    Ok (verdict, reason).
Proof.
  cbv zeta. intros Hin Hout Hrd. rewrite is_merge_possible_outcome. unfold verdict_of.
  assert (Hhalt : forall s1 s2, peer_at h n s1 = None \/ peer_at h n s2 = None ->
            halts_at must_be_true h mc n s1 s2).
  { intros s1 s2 Hs. unfold halts_at.
    destruct Hs as [-> | ->]; [done | by destruct (peer_at h n s1)]. }
  destruct (halts_compare_sockets must_be_true h mc n _ _ (Hhalt _ _ Hin)) as [[|] ->];
    [|eauto].
  destruct (halts_compare_sockets must_be_true h mc n _ _ (Hhalt _ _ Hout)) as [[|] ->];
    [|eauto].
  destruct (bool_decide _); cbn [negb]; [|eauto].
  destruct (Nat.eqb _ _) eqn:Hlen; cbn [negb]; [|eauto].
  rewrite (compare_syscalls_positional must_be_true mc _ _ (proj1 (Nat.eqb_eq _ _) Hlen)).
  destruct (forallb _ _); [|eauto].
  rewrite (compare_mem_outcome must_be_true _ _ mc Hrd).
  destruct (_ && _ && _); eauto.
Qed.

Lemma is_merge_possible_returns_witness :
  exists verdict reason,
    outcome (is_merge_possible syntactic_solver 1 self_peered
               (sample_states 0) (sample_states 1) (mkConstraintSet [])) =
    Ok (verdict, reason).
Proof.
  apply (is_merge_possible_returns syntactic_solver 0 self_peered
           (sample_states 0) (sample_states 1) (mkConstraintSet [])).
  - left. reflexivity.
  - left. reflexivity.
  - intros a _. unfold reads_one_byte. cbn. unfold sample_read.
    destruct (a =? 4096); [done|]. by destruct (a =? 4097).
Defined.

Section Reflexivity.

Variable must_be_true : ConstraintSet -> Expr -> bool.
Variable mc : ConstraintSet.
Hypothesis solver_reflexive : forall a, must_be_true mc (py_eq a a) = true.

Lemma compare_buffers_reflexive buf :
  outcome (compare_buffers must_be_true mc buf buf) = Ok true.
Proof.
  unfold compare_buffers. rewrite Nat.eqb_refl. cbn [negb].
  rewrite compare_zipped_eq. unfold outcome. cbn [fst]. f_equal.
  induction buf as [|x buf IH]; [done|].
  cbn [zip zip_with forallb]. rewrite IH.
  unfold answer, buffer_query. cbn [fst snd]. by rewrite solver_reflexive.
Qed.

Lemma compare_sockets_reflexive h n socket :
  peer_at h n socket = None ->
  outcome (compare_sockets must_be_true (S n) h mc socket socket) = Ok true.
Proof.
  revert socket. induction n as [|n IH]; intros [a|] Hend; try done.
  rewrite compare_sockets_step, compare_buffers_reflexive. by apply IH.
Qed.

Lemma syscalls_agree_reflexive trace :
  forallb (syscalls_agree must_be_true mc) (zip trace trace) = true.
Proof.
  induction trace as [|[[name fd] data] trace IH]; [done|].
  cbn [zip zip_with forallb syscalls_agree].
  rewrite !bool_decide_eq_true_2 by done.
  by rewrite compare_buffers_reflexive, IH.
Qed.

Lemma compare_mem_reflexive mem :
  (forall a, a ∈ symbolic_keys mem -> length (read mem a 1) = 1%nat) ->
  outcome (compare_mem must_be_true mem mem mc) = Ok true.
Proof.
  intros Hrd. rewrite compare_mem_outcome.
  - rewrite Nat.eqb_refl. f_equal. cbn [andb].
    apply andb_true_iff. split.
    + apply compare_maps_true. intros i m1 m2 H1 H2.
      rewrite H1 in H2. injection H2 as <-. by repeat split.
    + apply forallb_forall. intros a _.
      unfold byte_answer, byte_query, answer. cbn [fst snd]. apply solver_reflexive.
  - intros a [Ha | Ha]%symbolic_addresses_union; split; by apply Hrd.
Qed.

End Reflexivity.

(** X8. A state can be merged with itself: when the solver confirms that
    every expression equals itself, the peer chains of the input and output
    sockets end within depth [n] and the memory reads one value at each of
    its symbolic addresses, [is_merge_possible] returns [(True, None)] on a
    state and itself. *)
Theorem is_merge_possible_reflexive (must_be_true : ConstraintSet -> Expr -> bool)
    (n : nat) (h : SocketStore) (state : State) (mc : ConstraintSet) :
  (forall a, must_be_true mc (py_eq a a) = true) ->
  peer_at h n (input (state_platform state)) = None ->
  peer_at h n (output (state_platform state)) = None ->
  (forall a, a ∈ symbolic_keys (state_mem state) ->
     length (read (state_mem state) a 1) = 1%nat) ->
  outcome (is_merge_possible must_be_true (S n) h state state mc) = Ok (true, None).
Proof.
  intros Hrefl Hin Hout Hrd. rewrite is_merge_possible_outcome. unfold verdict_of.
  rewrite !compare_sockets_reflexive by done.
  rewrite bool_decide_eq_true_2 by done. rewrite Nat.eqb_refl. cbn [negb].
  rewrite compare_syscalls_positional by done.
  rewrite syscalls_agree_reflexive by done.
  by rewrite compare_mem_reflexive.
Qed.

Lemma syntactic_solver_reflexive cs a : syntactic_solver cs (py_eq a a) = true.
Proof.
  unfold py_eq. destruct (concrete_value a) as [x|]; simpl.
  - apply Z.eqb_refl.
  - by apply bool_decide_eq_true_2.
Defined.

Lemma is_merge_possible_reflexive_witness :
  outcome (is_merge_possible syntactic_solver 1 self_peered
             (sample_states 0) (sample_states 0) (mkConstraintSet [])) =
  Ok (true, None).
Proof.
  apply (is_merge_possible_reflexive syntactic_solver 0 self_peered
           (sample_states 0) (mkConstraintSet [])).
  - apply syntactic_solver_reflexive.
  - reflexivity.
  - reflexivity.
  - intros a _. cbn. unfold sample_read.
    destruct (a =? 4096); [done|]. by destruct (a =? 4097).
Defined.

(** ** merge_cpu and merge, continued *)


Lemma concrete_value_denote env (e : Expr) (x : Z) :
  concrete_value e = Some x -> denote env e = x.
Proof. destruct e; simpl; congruence. Qed.

Lemma denote_merged_value env size exp1 val1 val2 :
  denote env (merged_value size exp1 val1 val2) =
  if holds env exp1 then denote env val1 else denote env val2.
Proof.
  unfold merged_value, holds, ITE, ITEBV.
  destruct (size =? 1); cbn [denote]; by destruct (denote env exp1 =? 0).
Qed.

(** X9. A merge that succeeds returns [state1], whose constraints are now
    the merged constraint set; the memory, the platform and the CPU
    reference of [state1] are the ones it had, and every other state, so
    [state2], is left as it was: [merge] merges registers and nothing else. *)
Theorem merge_survivor (state1 state2 : nat) (exp1 : Expr)
    (merged_constraint : ConstraintSet) (h : Heap) :
  let cpu1 := state_cpu (states h state1) in
  let cpu2 := state_cpu (states h state2) in
  NoDup (canonical_registers (cpus h cpu1)) ->
  (forall reg, reg ∈ canonical_registers (cpus h cpu1) ->
     size_mismatch (read_register (cpus h cpu1) reg)
       (read_register (cpus h cpu2) reg) = false) ->
  exists h',
    merge state1 state2 exp1 merged_constraint h = (Ok state1, h') /\
    state_constraints (states h' state1) = merged_constraint /\
    state_mem (states h' state1) = state_mem (states h state1) /\
    state_platform (states h' state1) = state_platform (states h state1) /\
    state_cpu (states h' state1) = state_cpu (states h state1) /\
    (forall s, s <> state1 -> states h' s = states h s).
Proof.
  cbv zeta. intros Hnd Hsize. unfold merge, merge_cpu.
  destruct (merge_registers_Ok _ _ state1 exp1 _ h Hnd Hsize) as (h1 & Hrun & _).
  pose proof (merge_registers_frame (state_cpu (states h state1))
                (state_cpu (states h state2)) state1 exp1
                (canonical_registers (cpus h (state_cpu (states h state1)))) h) as Hframe.
  rewrite Hrun in Hframe |- *. cbn [snd] in Hframe. destruct Hframe as [Hstates _].
  eexists. split; [done|]. unfold set_state_constraints. cbn [states].
  rewrite fn_lookup_insert, Hstates. cbn. repeat split.
  intros s Hs. by rewrite fn_lookup_insert_ne.
Qed.

Lemma merge_survivor_witness :
  exists h',
    merge 0 1 (BoolVariable "p") (mkConstraintSet [BoolVariable "q"]) sample_heap =
      (Ok 0%nat, h') /\
    state_constraints (states h' 0%nat) = mkConstraintSet [BoolVariable "q"] /\
    states h' 1%nat = states sample_heap 1%nat.
Proof.
  destruct (merge_survivor 0 1 (BoolVariable "p") (mkConstraintSet [BoolVariable "q"])
              sample_heap) as (h' & Hrun & Hcs & _ & _ & _ & Hother).
  - apply (bool_decide_unpack _). vm_compute. exact I.
  - intros reg Hreg. apply (bool_decide_unpack _).
    cbn in Hreg. rewrite !elem_of_cons, elem_of_nil in Hreg.
    destruct Hreg as [-> | [-> | [-> | []]]]; vm_compute; exact I.
  - exists h'. split; [exact Hrun|]. split; [exact Hcs|]. by apply Hother.
Defined.



(** X11. After a merge that succeeds, every canonical register of the
    surviving state denotes, under an assignment that satisfies [exp1], what
    the register denoted in [state1], and under any other assignment what it
    denoted in [state2]. *)
Theorem merge_selects (state1 state2 : nat) (exp1 : Expr)
    (merged_constraint : ConstraintSet) (h : Heap) :
  let cpu1 := state_cpu (states h state1) in
  let cpu2 := state_cpu (states h state2) in
  NoDup (canonical_registers (cpus h cpu1)) ->
  (forall reg, reg ∈ canonical_registers (cpus h cpu1) ->
     size_mismatch (read_register (cpus h cpu1) reg)
       (read_register (cpus h cpu2) reg) = false) ->
  forall reg env, reg ∈ canonical_registers (cpus h cpu1) ->
    let h' := (merge state1 state2 exp1 merged_constraint h).2 in
    denote env (read_register (cpus h' (state_cpu (states h' state1))) reg) =
    if holds env exp1 then denote env (read_register (cpus h cpu1) reg)
    else denote env (read_register (cpus h cpu2) reg).
Proof.
  cbv zeta. intros Hnd Hsize reg env Hreg. unfold merge, merge_cpu.
  destruct (merge_registers_Ok _ _ state1 exp1 _ h Hnd Hsize) as (h1 & Hrun & Hvals).
  pose proof (merge_registers_frame (state_cpu (states h state1))
                (state_cpu (states h state2)) state1 exp1
                (canonical_registers (cpus h (state_cpu (states h state1)))) h) as Hframe.
  rewrite Hrun in Hframe |- *. cbn [snd] in Hframe |- *. destruct Hframe as [Hstates _].
  unfold set_state_constraints. cbn [states cpus].
  rewrite fn_lookup_insert, Hstates. cbn [state_cpu].
  rewrite (Hvals reg Hreg).
  destruct (merge_required _ _) eqn:Hreq; [apply denote_merged_value|].
  apply merge_required_false in Hreq as (x & H1 & H2).
  rewrite (concrete_value_denote env _ x H1), (concrete_value_denote env _ x H2).
  by destruct (holds env exp1).
Qed.

Lemma merge_selects_witness :
  denote (fun _ => 0)
    (read_register
       (cpus (merge 0 1 (BoolVariable "p") (mkConstraintSet [BoolVariable "q"])
                sample_heap).2 0%nat) "R0") = 7.
Proof.
  apply (merge_selects 0 1 (BoolVariable "p") (mkConstraintSet [BoolVariable "q"])
           sample_heap
           ltac:(apply (bool_decide_unpack _); vm_compute; exact I)
           ltac:(intros reg Hreg; apply (bool_decide_unpack _);
                 cbn in Hreg; rewrite !elem_of_cons, elem_of_nil in Hreg;
                 destruct Hreg as [-> | [-> | [-> | []]]]; vm_compute; exact I)
           "R0" (fun _ => 0)).
  cbn. rewrite !elem_of_cons. tauto.
Defined.


(** ** merge_constraints, continued *)

(** X13. The merged constraint set of two non-empty sets is satisfied by
    exactly the assignments that satisfy every expression of one of the two
    sets: it is feasible if and only if one of them is. *)
Theorem merged_constraint_feasible (c0 : Expr) (cs : list Expr)
    (d0 : Expr) (ds : list Expr) :
  exists exp1 exp2 merged,
    merge_constraints (mkConstraintSet (c0 :: cs)) (mkConstraintSet (d0 :: ds)) =
      Ok (exp1, exp2, merged) /\
    (forall env,
       forallb (holds env) (constraints merged) =
       forallb (holds env) (c0 :: cs) || forallb (holds env) (d0 :: ds)) /\
    ((exists env, forallb (holds env) (constraints merged) = true) <->
     (exists env, forallb (holds env) (c0 :: cs) = true) \/
     (exists env, forallb (holds env) (d0 :: ds) = true)).
Proof.
  assert (Hsem : forall env,
            forallb (holds env)
              (constraints
                 (mkConstraintSet [py_or (conjunction c0 cs) (conjunction d0 ds)])) =
            forallb (holds env) (c0 :: cs) || forallb (holds env) (d0 :: ds)).
  { intros env. cbn [constraints]. unfold py_or.
    change (forallb (holds env) [BoolOr (conjunction c0 cs) (conjunction d0 ds)])
      with (holds env (BoolOr (conjunction c0 cs) (conjunction d0 ds)) && true).
    by rewrite andb_true_r, holds_or, !holds_conjunction. }
  eexists _, _, _. split; [|split].
  - unfold merge_constraints. by rewrite !conjoin_cons.
  - exact Hsem.
  - split.
    + intros [env H]. rewrite Hsem in H. apply orb_true_iff in H as [H | H]; eauto.
    + intros [[env H] | [env H]]; exists env; rewrite Hsem, H;
        [done | apply orb_true_r].
Qed.

(** X14. Swapping the two constraint sets swaps the two conjunctions that
    [merge_constraints] returns, and gives a merged expression that holds
    under the same assignments. *)
Theorem merge_constraints_swap (c0 : Expr) (cs : list Expr) (d0 : Expr) (ds : list Expr) :
  exists exp1 exp2,
    merge_constraints (mkConstraintSet (c0 :: cs)) (mkConstraintSet (d0 :: ds)) =
      Ok (exp1, exp2, mkConstraintSet [py_or exp1 exp2]) /\
    merge_constraints (mkConstraintSet (d0 :: ds)) (mkConstraintSet (c0 :: cs)) =
      Ok (exp2, exp1, mkConstraintSet [py_or exp2 exp1]) /\
    forall env, holds env (py_or exp1 exp2) = holds env (py_or exp2 exp1).
Proof.
  exists (conjunction c0 cs), (conjunction d0 ds). split; [|split].
  - unfold merge_constraints. by rewrite !conjoin_cons.
  - unfold merge_constraints. by rewrite !conjoin_cons.
  - intros env. unfold py_or. rewrite !holds_or. apply orb_comm.
Qed.

(** X15. Merging a non-empty constraint set with itself gives a set that
    holds under exactly the assignments under which the set itself holds. *)
Theorem merge_constraints_same (c0 : Expr) (cs : list Expr) :
  exists exp merged,
    merge_constraints (mkConstraintSet (c0 :: cs)) (mkConstraintSet (c0 :: cs)) =
      Ok (exp, exp, merged) /\
    forall env,
      forallb (holds env) (constraints merged) = forallb (holds env) (c0 :: cs).
Proof.
  exists (conjunction c0 cs),
    (mkConstraintSet [py_or (conjunction c0 cs) (conjunction c0 cs)]). split.
  - unfold merge_constraints. by rewrite !conjoin_cons.
  - intros env. cbn [constraints]. unfold py_or.
    change (forallb (holds env) [BoolOr (conjunction c0 cs) (conjunction c0 cs)])
      with (holds env (BoolOr (conjunction c0 cs) (conjunction c0 cs)) && true).
    by rewrite andb_true_r, holds_or, orb_diag, holds_conjunction.
Qed.

(** ** choose_detectors *)

Lemma dict_set_fresh {V} (d : list (string * V)) (k : string) (v : V) :
  k ∉ d.*1 -> dict_set d k v = d ++ [(k, v)].
Proof. intros Hk. unfold dict_set. by rewrite bool_decide_eq_false_2. Qed.

Lemma dict_of_distinct_from {V} (d items : list (string * V)) :
  NoDup (d.*1 ++ items.*1) ->
  foldl (fun d kv => dict_set d kv.1 kv.2) d items = d ++ items.
Proof.
  revert d. induction items as [|[k v] items IH]; intros d Hnd.
  - by rewrite app_nil_r.
  - cbn [foldl fst snd]. cbn [fmap list_fmap fst] in Hnd.
    rewrite dict_set_fresh.
    + rewrite IH; [by rewrite <- app_assoc|].
      rewrite fmap_app. cbn [fmap list_fmap fst]. by rewrite <- app_assoc.
    + apply NoDup_app in Hnd as (_ & Hdisj & _). intros Hk.
      apply (Hdisj k Hk). apply list_elem_of_here.
Qed.

Lemma dict_of_distinct {V} (items : list (string * V)) :
  NoDup items.*1 -> dict_of items = items.
Proof. intros Hnd. unfold dict_of. by rewrite (dict_of_distinct_from [] items). Qed.

Lemma detectors_not_excluded_filter (items : list (string * Detector))
    (exclude : list string) :
  detectors_not_excluded items exclude =
  (filter (fun kv : string * Detector => kv.1 ∉ exclude) items).*2.
Proof.
  induction items as [|[arg d] items IH]; [done|].
  cbn [detectors_not_excluded]. rewrite filter_cons. cbn [fst].
  destruct (decide (arg ∉ exclude)) as [Hin | Hin].
  - rewrite bool_decide_eq_true_2 by done. cbn. by rewrite IH.
  - by rewrite bool_decide_eq_false_2.
Qed.

Lemma check_excluded_valid (exclude arguments : list string) :
  (forall e, e ∈ exclude -> e ∈ arguments) ->
  check_excluded exclude arguments = Returns tt.
Proof.
  induction exclude as [|e exclude IH]; intros Hall; [done|].
  cbn [check_excluded]. rewrite bool_decide_eq_false_2.
  - apply IH. intros x Hx. by apply Hall, list_elem_of_further.
  - intros Hnot. apply Hnot, Hall, list_elem_of_here.
Qed.

Lemma check_excluded_invalid (pre : list string) (e : string)
    (post arguments : list string) :
  (forall x, x ∈ pre -> x ∈ arguments) -> e ∉ arguments ->
  check_excluded (pre ++ e :: post) arguments = Raises (NotADetector e arguments).
Proof.
  intros Hpre He. induction pre as [|x pre IH]; cbn [app check_excluded].
  - by rewrite bool_decide_eq_true_2.
  - rewrite bool_decide_eq_false_2.
    + apply IH. intros y Hy. by apply Hpre, list_elem_of_further.
    + intros Hnot. apply Hnot, Hpre, list_elem_of_here.
Qed.

Section ChooseDetectors.

Variable ARGUMENT : Detector -> string.

(** The dict of the detectors when their names are two by two distinct. *)
Lemma detectors_dict_distinct :
  NoDup (ARGUMENT <$> get_detectors_classes) ->
  dict_of ((fun d => (ARGUMENT d, d)) <$> get_detectors_classes) =
  (fun d => (ARGUMENT d, d)) <$> get_detectors_classes.
Proof.
  intros Hnd. apply dict_of_distinct. by rewrite <- list_fmap_compose.
Qed.

Lemma not_excluded_distinct (l : list Detector) (exclude : list string) :
  (filter (fun kv : string * Detector => kv.1 ∉ exclude)
     ((fun d => (ARGUMENT d, d)) <$> l)).*2 =
  filter (fun d => ARGUMENT d ∉ exclude) l.
Proof.
  induction l as [|d l IH]; [done|].
  cbn [fmap list_fmap]. rewrite !filter_cons. cbn [fst].
  destruct (decide (ARGUMENT d ∉ exclude)); [cbn; by rewrite IH | exact IH].
Qed.

End ChooseDetectors.

(** X16. When the names of the detectors are two by two distinct and
    nothing is excluded ([exclude_all] is false, [detectors_to_exclude] is
    [None] or empty), [choose_detectors] returns the twelve detector classes
    of [get_detectors_classes], in that order. *)
Theorem choose_detectors_default (ARGUMENT : Detector -> string) (args : Args) :
  NoDup (ARGUMENT <$> get_detectors_classes) ->
  exclude_all args = false ->
  truthy (detectors_to_exclude args) = false ->
  choose_detectors ARGUMENT args = Returns get_detectors_classes.
Proof.
  intros Hnd Hall Hnone. unfold choose_detectors. rewrite Hall, Hnone. cbn [negb].
  rewrite detectors_dict_distinct by done.
  by rewrite detectors_not_excluded_filter, not_excluded_distinct.
Qed.

Lemma choose_detectors_default_witness :
  choose_detectors sample_ARGUMENT (sample_args (Some "")) = Returns get_detectors_classes.
Proof.
  apply (choose_detectors_default sample_ARGUMENT (sample_args (Some ""))).
  - apply (bool_decide_unpack _). vm_compute. exact I.
  - reflexivity.
  - reflexivity.
Defined.

(** X17. With distinct names and a non-empty [detectors_to_exclude], the
    string is cut at its commas.  When every piece is the name of a listed
    detector, [choose_detectors] returns the listed detectors whose name is
    not among the pieces, in the order of the list; otherwise it raises the
    exception that carries the first piece that is no name, and the names. *)
Theorem choose_detectors_excludes (ARGUMENT : Detector -> string) (args : Args)
    (s : string) :
  NoDup (ARGUMENT <$> get_detectors_classes) ->
  exclude_all args = false ->
  detectors_to_exclude args = Some s -> s <> EmptyString ->
  let names := ARGUMENT <$> get_detectors_classes in
  ((forall e, e ∈ split_comma s -> e ∈ names) ->
   choose_detectors ARGUMENT args =
   Returns (filter (fun d => ARGUMENT d ∉ split_comma s) get_detectors_classes)) /\
  (forall pre e post,
     split_comma s = pre ++ e :: post ->
     (forall x, x ∈ pre -> x ∈ names) -> e ∉ names ->
     choose_detectors ARGUMENT args = Raises (NotADetector e names)).
Proof.
  intros Hnd Hall Hs Hne. cbv zeta. unfold choose_detectors.
  rewrite Hall, Hs. cbn [negb truthy default from_option id].
  rewrite bool_decide_eq_false_2 by done. cbn [negb].
  rewrite detectors_dict_distinct by done.
  rewrite <- list_fmap_compose.
  change (fst ∘ (fun d => (ARGUMENT d, d))) with ARGUMENT.
  split.
  - intros Hvalid. rewrite check_excluded_valid by done.
    by rewrite detectors_not_excluded_filter, not_excluded_distinct.
  - intros pre e post Hsplit Hpre He. rewrite Hsplit.
    by rewrite check_excluded_invalid.
Qed.

Lemma choose_detectors_excludes_witness :
  choose_detectors sample_ARGUMENT (sample_args (Some "overflow,lockdrop")) =
    Returns [DetectInvalid; DetectUninitializedStorage; DetectUninitializedMemory;
             DetectReentrancySimple; DetectReentrancyAdvanced; DetectUnusedRetVal;
             DetectSuicidal; DetectDelegatecall; DetectExternalCallAndLeak;
             DetectEnvInstruction] /\
  choose_detectors sample_ARGUMENT (sample_args (Some "overflow, lockdrop")) =
    Raises (NotADetector " lockdrop" (sample_ARGUMENT <$> get_detectors_classes)).
Proof.
  assert (Hnd : NoDup (sample_ARGUMENT <$> get_detectors_classes))
    by (apply (bool_decide_unpack _); vm_compute; exact I).
  split.
  - destruct (choose_detectors_excludes sample_ARGUMENT
                (sample_args (Some "overflow,lockdrop")) "overflow,lockdrop"
                Hnd eq_refl eq_refl ltac:(discriminate)) as [H _].
    rewrite H; [vm_compute; reflexivity|].
    intros e He. apply (bool_decide_unpack _).
    change (split_comma "overflow,lockdrop") with ["overflow"; "lockdrop"] in He.
    rewrite !elem_of_cons, elem_of_nil in He.
    destruct He as [-> | [-> | []]]; vm_compute; exact I.
  - destruct (choose_detectors_excludes sample_ARGUMENT
                (sample_args (Some "overflow, lockdrop")) "overflow, lockdrop"
                Hnd eq_refl eq_refl ltac:(discriminate)) as [_ H].
    apply (H ["overflow"] " lockdrop" []).
    + vm_compute. reflexivity.
    + intros x ->%list_elem_of_singleton. apply (bool_decide_unpack _).
      vm_compute. exact I.
    + apply (bool_decide_unpack _). vm_compute. exact I.
Defined.

Section DetectorsDict.

Variable ARGUMENT : Detector -> string.
Variable classes : list Detector.

(** The items of a dict built from classes of [classes] under their
    names: the keys are distinct and each key is the name of its class. *)
Lemma dict_set_named (d : list (string * Detector)) (c : Detector) :
  c ∈ classes ->
  NoDup d.*1 ->
  (forall k v, (k, v) ∈ d -> k = ARGUMENT v /\ v ∈ classes) ->
  NoDup (dict_set d (ARGUMENT c) c).*1 /\
  (forall k v, (k, v) ∈ dict_set d (ARGUMENT c) c -> k = ARGUMENT v /\ v ∈ classes).
Proof.
  intros Hc Hnd Hnamed. unfold dict_set. case_bool_decide as Hin.
  - split.
    + rewrite <- list_fmap_compose.
      replace (d.*1) with
        ((fst ∘ (fun kv : string * Detector =>
                   if bool_decide (kv.1 = ARGUMENT c) then (ARGUMENT c, c) else kv)) <$> d)
        in Hnd; [done|].
      apply list_fmap_ext. intros i [k v] _. cbn. by case_bool_decide.
    + intros k v ([k' v'] & Heq & Hkv)%list_elem_of_fmap. cbn in Heq.
      case_bool_decide; injection Heq as -> ->; [done | by apply Hnamed].
  - split.
    + rewrite fmap_app. cbn. apply NoDup_app. split; [done|]. split.
      * intros k Hk ->%list_elem_of_singleton. done.
      * apply NoDup_singleton.
    + intros k v [Hkv | [= -> ->]%list_elem_of_singleton]%elem_of_app;
        [by apply Hnamed | done].
Qed.

Lemma dict_fold_named (items : list Detector) (d : list (string * Detector)) :
  (forall c, c ∈ items -> c ∈ classes) ->
  NoDup d.*1 ->
  (forall k v, (k, v) ∈ d -> k = ARGUMENT v /\ v ∈ classes) ->
  let d' := foldl (fun d kv => dict_set d kv.1 kv.2) d
              ((fun c => (ARGUMENT c, c)) <$> items) in
  NoDup d'.*1 /\ (forall k v, (k, v) ∈ d' -> k = ARGUMENT v /\ v ∈ classes).
Proof.
  cbv zeta. revert d. induction items as [|c items IH]; intros d Hsub Hnd Hnamed; [done|].
  cbn [fmap list_fmap foldl fst snd].
  destruct (dict_set_named d c) as [Hnd' Hnamed']; [apply Hsub, list_elem_of_here|done..|].
  apply IH; [|done..]. intros c' Hc'. by apply Hsub, list_elem_of_further.
Qed.

Lemma dict_of_named :
  let d := dict_of ((fun c => (ARGUMENT c, c)) <$> classes) in
  NoDup d.*1 /\ (forall k v, (k, v) ∈ d -> k = ARGUMENT v /\ v ∈ classes).
Proof.
  apply (dict_fold_named classes []); [done | apply NoDup_nil_2 |].
  by intros k v Hkv%elem_of_nil.
Qed.

Lemma not_excluded_named (d : list (string * Detector)) (exclude : list string) :
  NoDup d.*1 ->
  (forall k v, (k, v) ∈ d -> k = ARGUMENT v /\ v ∈ classes) ->
  NoDup (detectors_not_excluded d exclude) /\
  forall c, c ∈ detectors_not_excluded d exclude ->
    c ∈ classes /\ ARGUMENT c ∉ exclude.
Proof.
  intros Hnd Hnamed. rewrite detectors_not_excluded_filter. split.
  - apply (NoDup_fmap_1 ARGUMENT). rewrite <- list_fmap_compose.
    replace ((ARGUMENT ∘ snd) <$> filter (fun kv : string * Detector => kv.1 ∉ exclude) d)
      with ((filter (fun kv : string * Detector => kv.1 ∉ exclude) d).*1).
    + apply (sublist_NoDup _ (d.*1)); [done|]. apply fmap_sublist, sublist_filter.
    + apply list_fmap_ext. intros i [k v] Hi. cbn.
      apply list_elem_of_lookup_2, list_elem_of_filter in Hi as [_ Hkv].
      by destruct (Hnamed k v Hkv).
  - intros c ([k v] & -> & [Hk Hkv]%list_elem_of_filter)%list_elem_of_fmap.
    cbn in *. destruct (Hnamed k v Hkv) as [-> Hv]. done.
Qed.

End DetectorsDict.

(** X18. Whatever the names of the detectors, the classes that
    [choose_detectors] returns are distinct classes of
    [get_detectors_classes]: [DetectRaceCondition] is never chosen.  When
    [detectors_to_exclude] is a non-empty string, none of them has a name
    that is a piece of it. *)
Theorem choose_detectors_sound (ARGUMENT : Detector -> string) (args : Args)
    (chosen : list Detector) :
  choose_detectors ARGUMENT args = Returns chosen ->
  NoDup chosen /\
  (DetectRaceCondition ∉ chosen) /\
  (forall c, c ∈ chosen ->
     c ∈ get_detectors_classes /\
     forall s, detectors_to_exclude args = Some s -> s <> EmptyString ->
               ARGUMENT c ∉ split_comma s).
Proof.
  unfold choose_detectors.
  destruct (dict_of_named ARGUMENT get_detectors_classes) as [Hnd Hnamed].
  assert (Hrace : DetectRaceCondition ∉ get_detectors_classes).
  { apply (bool_decide_unpack _). vm_compute. exact I. }
  cbv zeta in Hnd, Hnamed.
  generalize dependent (dict_of ((fun d => (ARGUMENT d, d)) <$> get_detectors_classes)).
  intros d Hnd Hnamed.
  destruct (exclude_all args); cbn [negb].
  { intros [= <-]. split; [apply NoDup_nil_2|]. split; [apply not_elem_of_nil|].
    by intros c Hc%elem_of_nil. }
  destruct (detectors_to_exclude args) as [s|] eqn:Hs; cbn [truthy default from_option id].
  - case_bool_decide as Hempty; cbn [negb].
    + intros [= <-].
      destruct (not_excluded_named ARGUMENT get_detectors_classes d [] Hnd Hnamed)
        as [Hnd' Hin].
      split; [done|]. split; [intros Hc; by destruct (Hin _ Hc)|].
      intros c Hc. split; [by destruct (Hin _ Hc)|]. intros s' [= <-] Hne. done.
    + destruct (check_excluded _ _); [|done]. intros [= <-].
      destruct (not_excluded_named ARGUMENT get_detectors_classes d (split_comma s)
                  Hnd Hnamed) as [Hnd' Hin].
      split; [done|]. split; [intros Hc; by destruct (Hin _ Hc)|].
      intros c Hc. split; [by destruct (Hin _ Hc)|].
      intros s' [= <-] _. by destruct (Hin _ Hc).
  - intros [= <-].
    destruct (not_excluded_named ARGUMENT get_detectors_classes d [] Hnd Hnamed)
      as [Hnd' Hin].
    split; [done|]. split; [intros Hc; by destruct (Hin _ Hc)|].
    intros c Hc. split; [by destruct (Hin _ Hc)|]. by intros s' [=].
Qed.

Lemma choose_detectors_sound_witness :
  DetectRaceCondition ∉
    [DetectInvalid; DetectUninitializedStorage; DetectUninitializedMemory;
     DetectReentrancySimple; DetectReentrancyAdvanced; DetectUnusedRetVal;
     DetectSuicidal; DetectDelegatecall; DetectExternalCallAndLeak;
     DetectEnvInstruction].
Proof.
  apply (choose_detectors_sound sample_ARGUMENT (sample_args (Some "overflow,lockdrop"))).
  vm_compute. reflexivity.
Defined.

Lemma split_comma_trailing (s : string) :
  exists piece pieces,
    split_comma (String.append s ",") = piece :: pieces /\
    last pieces = Some EmptyString.
Proof.
  induction s as [|c s (piece & pieces & IH & Hlast)].
  - by exists EmptyString, [EmptyString].
  - change (String.append (String c s) ",") with (String c (String.append s ",")).
    cbn [split_comma]. rewrite IH.
    destruct (Ascii.eqb c (Ascii.ascii_of_nat 44)).
    + exists EmptyString, (piece :: pieces). split; [done|].
      destruct pieces; [done|]. exact Hlast.
    + by exists (String c piece), pieces.
Qed.

Lemma check_excluded_raises (exclude arguments : list string) (e : string) :
  e ∈ exclude -> e ∉ arguments ->
  exists e', check_excluded exclude arguments = Raises (NotADetector e' arguments).
Proof.
  intros He Hnot. induction exclude as [|x exclude IH]; [by apply elem_of_nil in He|].
  cbn [check_excluded]. case_bool_decide as Hx; [eauto|].
  apply elem_of_cons in He as [-> | He]; [|by apply IH].
  contradiction.
Qed.

(** X19. When no detector has the empty name, a [detectors_to_exclude]
    that ends with a comma makes [choose_detectors] raise its exception: the
    empty piece after the last comma is no detector name. *)
Theorem choose_detectors_trailing_comma (ARGUMENT : Detector -> string) (args : Args)
    (s : string) :
  exclude_all args = false ->
  detectors_to_exclude args = Some (String.append s ",") ->
  (forall c, c ∈ get_detectors_classes -> ARGUMENT c <> EmptyString) ->
  exists e names, choose_detectors ARGUMENT args = Raises (NotADetector e names).
Proof.
  intros Hall Hs Hnames. unfold choose_detectors.
  destruct (dict_of_named ARGUMENT get_detectors_classes) as [_ Hnamed].
  cbv zeta in Hnamed.
  generalize dependent (dict_of ((fun d => (ARGUMENT d, d)) <$> get_detectors_classes)).
  intros d Hnamed. rewrite Hall, Hs. cbn [negb truthy default from_option id].
  destruct (split_comma_trailing s) as (piece & pieces & Hsplit & Hlast).
  rewrite bool_decide_eq_false_2 by (destruct s; discriminate). cbn [negb].
  destruct (check_excluded_raises (split_comma (String.append s ",")) d.*1 EmptyString)
    as [e' ->]; [| |eauto].
  - rewrite Hsplit. apply list_elem_of_further.
    apply last_Some in Hlast as [pre ->]. apply elem_of_app. right.
    apply list_elem_of_here.
  - intros ([k v] & Hk & Hkv)%list_elem_of_fmap. cbn in Hk. subst k.
    destruct (Hnamed _ _ Hkv) as [Hname Hclass]. by apply (Hnames v).
Qed.

Lemma choose_detectors_trailing_comma_witness :
  exists e names,
    choose_detectors sample_ARGUMENT (sample_args (Some "overflow,")) =
    Raises (NotADetector e names).
Proof.
  apply (choose_detectors_trailing_comma sample_ARGUMENT
           (sample_args (Some "overflow,")) "overflow").
  - reflexivity.
  - reflexivity.
  - intros c _. by destruct c.
Defined.

(** ** ethereum_main *)

Lemma choose_detectors_exclude_all (ARGUMENT : Detector -> string) (args : Args) :
  exclude_all args = true -> choose_detectors ARGUMENT args = Returns [].
Proof. intros Hall. unfold choose_detectors. by rewrite Hall. Qed.

(** Membership of a call in a sequence of calls that is spelled out. *)
Ltac call_cases H :=
  repeat first
    [ apply elem_of_nil in H; destruct H
    | apply elem_of_cons in H as [H | H]
    | apply elem_of_app in H as [H | H]
    | apply list_elem_of_fmap in H as (? & H & _) ];
  try discriminate H.

Ltac call_found :=
  cbn [app]; repeat first [ apply list_elem_of_here | apply list_elem_of_further ].

(** X20. In quick mode [ethereum_main] registers no detector and never
    raises the exception of [choose_detectors], whatever
    [detectors_to_exclude] says; it sets the out-of-gas policy to "ignore",
    registers the filter of constant functions, and finalizes, if it does,
    with the alive states only. *)
Theorem ethereum_main_quick_mode (ARGUMENT : Detector -> string) (profile : bool)
    (m_detectors : list Detector) (m_plugins : list Registered) (args : Args) :
  quick_mode args = true ->
  let r := ethereum_main ARGUMENT profile m_detectors m_plugins args in
  (forall e names, r.1 <> Raises (NotADetector e names)) /\
  (forall d, RegisterDetector d ∉ r.2) /\
  SetEvmOog "ignore" ∈ r.2 /\
  RegisterPlugin (FilterFunctions ".*" "human" "constant" false) ∈ r.2 /\
  (forall only_alive, Finalize only_alive ∈ r.2 -> only_alive = true).
Proof.
  intros Hquick. cbv zeta. unfold ethereum_main.
  rewrite choose_detectors_exclude_all by (unfold apply_quick_mode; by rewrite Hquick).
  unfold apply_quick_mode. rewrite Hquick.
  cbn [avoid_constant verbose_trace limit_loops argv txnocoverage txnoether
       no_testcases only_alive_testcases fmap list_fmap].
  destruct (verbose_trace args), (limit_loops args), profile, (no_testcases args),
    (argv args) as [|source rest];
    cbn [fst snd negb]; (split; [done|]);
    (split; [intros d Hd; call_cases Hd|]);
    (split; [call_found|]);
    (split; [call_found|]);
    intros only_alive Hf; call_cases Hf; by injection Hf.
Qed.

Lemma ethereum_main_quick_mode_witness :
  RegisterDetector DetectInvalid ∉
    (ethereum_main sample_ARGUMENT false [] []
       (mkArgs true false false false false false (Some "no-such-detector")
          ["contract.sol"] false false false)).2.
Proof.
  apply (ethereum_main_quick_mode sample_ARGUMENT false [] []
           (mkArgs true false false false false false (Some "no-such-detector")
              ["contract.sol"] false false false)).
  reflexivity.
Defined.


(** X21. When [ethereum_main] raises the exception of [choose_detectors],
    quick mode and [exclude_all] are off, and the only calls made are the
    registrations of [KeepOnlyIfStorageChanges] and, if asked for, of
    [VerboseTrace] and [LoopDepthLimiter]: no detector is registered and the
    analysis is neither run nor finalized. *)
Theorem ethereum_main_rejects_name (ARGUMENT : Detector -> string) (profile : bool)
    (m_detectors : list Detector) (m_plugins : list Registered) (args : Args)
    (e : string) (names : list string) :
  (ethereum_main ARGUMENT profile m_detectors m_plugins args).1 =
    Raises (NotADetector e names) ->
  quick_mode args = false /\ exclude_all args = false /\
  choose_detectors ARGUMENT args = Raises (NotADetector e names) /\
  (ethereum_main ARGUMENT profile m_detectors m_plugins args).2 =
    [RegisterPlugin KeepOnlyIfStorageChanges] ++
    (if verbose_trace args then [RegisterPlugin VerboseTrace] else []) ++
    (if limit_loops args then [RegisterPlugin LoopDepthLimiter] else []).
Proof.
  unfold ethereum_main. destruct (quick_mode args) eqn:Hquick.
  - rewrite choose_detectors_exclude_all by (unfold apply_quick_mode; by rewrite Hquick).
    by destruct (argv (apply_quick_mode args)).
  - replace (apply_quick_mode args) with args by (unfold apply_quick_mode; by rewrite Hquick).
    destruct (choose_detectors ARGUMENT args) as [chosen | e'] eqn:Hchoose.
    + by destruct (argv args).
    + cbn [fst snd]. intros [= ->]. split; [done|]. split; [|done].
      destruct (exclude_all args) eqn:Hall; [|done].
      by rewrite choose_detectors_exclude_all in Hchoose.
Qed.

Lemma ethereum_main_rejects_name_witness :
  (ethereum_main sample_ARGUMENT true [] [] (sample_args (Some "race-condition"))).2 =
  [RegisterPlugin KeepOnlyIfStorageChanges; RegisterPlugin VerboseTrace].
Proof.
  apply (ethereum_main_rejects_name sample_ARGUMENT true [] []
           (sample_args (Some "race-condition")) "race-condition"
           (sample_ARGUMENT <$> get_detectors_classes)).
  vm_compute. reflexivity.
Defined.


